(** * AlignMoreSeqsToPairWithMissingCoverage

    A shallow embedding of [tools/AlignMoreSeqsToPairWithMissingCoverage.py]
    and the properties of its segmentation, reconciliation walk and sanity
    checks.

    Python [str] values that hold sequence data are lists of characters,
    sequence identifiers are [string]s, the two parallel lists built by
    [SplitSeqByGapsAndMissingCov] stay two lists, and every way the script can
    stop early (an [exit(1)] after a message, or an uncaught exception) is a
    constructor of [failure]. *)

From Stdlib Require Import Ascii String OrderedTypeEx.
From Stdlib Require Import Arith Bool Lia List Permutation.
Import ListNotations.

Local Open Scope list_scope.
Local Open Scope char_scope.
Local Open Scope nat_scope.

(** ** Python strings *)

Abbreviation str := (list ascii) (only parsing).

Definition str_of (s : string) : str := list_ascii_of_string s.

Definition str_eq_dec : forall a b : str, {a = b} + {a <> b} :=
  list_eq_dec Ascii.ascii_dec.

(** [s.replace(old, new)] for one-character [old] and [new]. *)
Definition replace (old new : ascii) (s : str) : str :=
  map (fun c => if Ascii.eqb c old then new else c) s.

(** [s.replace(old, '')] for a one-character [old]. *)
Definition delete (old : ascii) (s : str) : str :=
  filter (fun c => negb (Ascii.eqb c old)) s.

Fixpoint startswith (sub s : str) : bool :=
  match sub, s with
  | [], _ => true
  | _ :: _, [] => false
  | a :: sub', b :: s' => Ascii.eqb a b && startswith sub' s'
  end.

(** [sub in s]. *)
Fixpoint contains (sub s : str) : bool :=
  startswith sub s
  || match s with
     | [] => false
     | _ :: s' => contains sub s'
     end.

(** ** Ways of stopping early *)

(** One constructor per [exit(1)] of the script, named after the message that
    precedes it, and one per kind of uncaught exception, which carries the
    line of the script that raises it. *)
Inductive failure : Set :=
| ThreeSeqs            (* line 67 *)
| LessThanTwoSeqs      (* line 71 *)
| LengthsDiffer        (* line 79 *)
| BothGap              (* line 86 *)
| MissingCovVsGap      (* line 91 *)
| DuplicateID          (* line 105 *)
| MafftProblem         (* re-raised at line 127 *)
| DifferentSeqs        (* line 140 *)
| DifferentBases       (* line 149 *)
| GapBecameOther       (* line 200 *)
| SeqBecameOther       (* line 214 *)
| FragmentMismatch     (* line 228 *)
| RoundTripFailed      (* line 236 *)
| GapNextToMissing     (* line 241 *)
| IndexError (line : nat)
| NameError (line : nat)
| UnboundLocalError (line : nat).

(** The error kinds of the design document. *)
Inductive error_kind : Set :=
| FormatError
| DuplicateIdentifierError
| AlignmentFailure
| ConsistencyError
| ReconciliationError
| InvariantError.

(** The kind the design document gives to each message; an uncaught Python
    exception is none of them. *)
Definition kind (f : failure) : option error_kind :=
  match f with
  | ThreeSeqs | LessThanTwoSeqs | LengthsDiffer | BothGap | MissingCovVsGap =>
      Some FormatError
  | DuplicateID => Some DuplicateIdentifierError
  | MafftProblem => Some AlignmentFailure
  | DifferentSeqs | DifferentBases => Some ConsistencyError
  | GapBecameOther | SeqBecameOther | FragmentMismatch =>
      Some ReconciliationError
  | RoundTripFailed | GapNextToMissing => Some InvariantError
  | IndexError _ | NameError _ | UnboundLocalError _ => None
  end.

Inductive result (A : Type) : Type :=
| Ok (a : A)
| Fail (f : failure).

Arguments Ok {A} a.
Arguments Fail {A} f.

Definition bind {A B : Type} (r : result A) (k : A -> result B) : result B :=
  match r with
  | Ok a => k a
  | Fail f => Fail f
  end.

Notation "x <- r ;; k" := (bind r (fun x => k))
  (at level 61, r at next level, right associativity).
Notation "' p <- r ;; k" := (bind r (fun x => let p := x in k))
  (at level 61, p pattern, r at next level, right associativity).

(** [l[i]] for a non-negative [i], read at line [line]. *)
Definition item {A : Type} (l : list A) (i line : nat) : result A :=
  match nth_error l i with
  | Some x => Ok x
  | None => Fail (IndexError line)
  end.

(** [l[-1]], read at line [line]. *)
Fixpoint last_item {A : Type} (l : list A) (line : nat) : result A :=
  match l with
  | [] => Fail (IndexError line)
  | [x] => Ok x
  | _ :: l' => last_item l' line
  end.

(** [l[-1] = f(l[-1])], at line [line]. *)
Fixpoint set_last {A : Type} (f : A -> A) (l : list A) (line : nat)
  : result (list A) :=
  match l with
  | [] => Fail (IndexError line)
  | [x] => Ok [f x]
  | x :: l' => l'' <- set_last f l' line ;; Ok (x :: l'')
  end.

(** [l[i] = x] for an index already read. *)
Fixpoint set_item {A : Type} (l : list A) (i : nat) (x : A) : list A :=
  match l, i with
  | [], _ => []
  | _ :: l', O => x :: l'
  | y :: l', S i' => y :: set_item l' i' x
  end.

(** ** Segmentation (lines 152-174) *)

Definition CharToInt (char : ascii) : nat :=
  if Ascii.eqb char "?" then 0
  else if Ascii.eqb char "-" then 1
  else 2.

(** The two names the loop of [SplitSeqByGapsAndMissingCov] binds at [i == 0];
    [None] while they are unbound. *)
Definition split_locals : Type := option (list str * list nat).

Definition SplitBody (i : nat) (base : ascii) (locals : split_locals)
  : result split_locals :=
  let BaseType := CharToInt base in
  if i =? 0 then Ok (Some ([[base]], [BaseType]))
  else
    match locals with
    | None => Fail (UnboundLocalError 169)
    | Some (ListOfBitsOfSeq, ListOfBitTypes) =>
        LastType <- last_item ListOfBitTypes 169 ;;
        if BaseType =? LastType then
          ListOfBitsOfSeq' <-
            set_last (fun bit => bit ++ [base]) ListOfBitsOfSeq 170 ;;
          Ok (Some (ListOfBitsOfSeq', ListOfBitTypes))
        else
          Ok (Some (ListOfBitsOfSeq ++ [[base]], ListOfBitTypes ++ [BaseType]))
    end.

Fixpoint SplitLoop (i : nat) (seq : str) (locals : split_locals)
  : result split_locals :=
  match seq with
  | [] => Ok locals
  | base :: seq' =>
      locals' <- SplitBody i base locals ;; SplitLoop (S i) seq' locals'
  end.

Definition SplitSeqByGapsAndMissingCov (seq : str)
  : result (list str * list nat) :=
  locals <- SplitLoop 0 seq None ;;
  match locals with
  | None => Fail (UnboundLocalError 174)
  | Some lists => Ok lists
  end.

(** ** Reconciliation walk (lines 184-229) *)

Record walk : Type := Walk {
  NewConsensus : str;
  ProgThroughPostAln : nat
}.

(** The [while] loop of lines 221-223. [remaining] is the part of
    [PostAlnConsensusBits] from [ProgThroughPostAln] on, so that its head is
    [PostAlnConsensusBits[ProgThroughPostAln]]; [WhileLoop_eq] below restates
    the loop with the read by index. *)
Fixpoint WhileFrom (PreAlnConsensusBitLength : nat) (remaining : list str)
  (NewForm : str) (ProgThroughPostAln : nat) : result (str * nat) :=
  if length (delete "-" NewForm) <? PreAlnConsensusBitLength then
    match remaining with
    | [] => Fail (IndexError 222)
    | bit :: remaining' =>
        WhileFrom PreAlnConsensusBitLength remaining' (NewForm ++ bit)
          (S ProgThroughPostAln)
    end
  else Ok (NewForm, ProgThroughPostAln).

Definition WhileLoop (PreAlnConsensusBitLength : nat)
  (PostAlnConsensusBits : list str) (NewForm : str) (ProgThroughPostAln : nat)
  : result (str * nat) :=
  WhileFrom PreAlnConsensusBitLength
    (skipn ProgThroughPostAln PostAlnConsensusBits) NewForm ProgThroughPostAln.

Section Walk.

Variable PreAlnConsensusBitTypes : list nat.
Variable PostAlnConsensusBits : list str.
Variable PostAlnConsensusBitTypes : list nat.

Definition LoopBody (ProgThroughPreAln : nat) (PreAlnConsensusBit : str)
  (w : walk) : result walk :=
  PreAlnConsensusBitType <-
    item PreAlnConsensusBitTypes ProgThroughPreAln 188 ;;
  PostAlnConsensusBit <-
    item PostAlnConsensusBits (ProgThroughPostAln w) 189 ;;
  PostAlnConsensusBitType <-
    item PostAlnConsensusBitTypes (ProgThroughPostAln w) 190 ;;
  if (PreAlnConsensusBitType =? 0) || (PreAlnConsensusBitType =? 1) then
    if negb (PostAlnConsensusBitType =? 1) then Fail GapBecameOther
    else
      symbol <- item PreAlnConsensusBit 0 201 ;;
      Ok (Walk (NewConsensus w ++ repeat symbol (length PostAlnConsensusBit))
               (S (ProgThroughPostAln w)))
  else if negb (PostAlnConsensusBitType =? 2) then Fail SeqBecameOther
  else
    let PreAlnConsensusBitLength := length PreAlnConsensusBit in
    if length PostAlnConsensusBit =? PreAlnConsensusBitLength then
      Ok (Walk (NewConsensus w ++ PreAlnConsensusBit)
               (S (ProgThroughPostAln w)))
    else
      '(NewForm, cursor) <-
        WhileLoop PreAlnConsensusBitLength PostAlnConsensusBits []
          (ProgThroughPostAln w) ;;
      if str_eq_dec (delete "-" NewForm) PreAlnConsensusBit then
        Ok (Walk (NewConsensus w ++ NewForm) cursor)
      else Fail FragmentMismatch.

Fixpoint ForLoop (ProgThroughPreAln : nat) (PreAlnConsensusBits : list str)
  (w : walk) : result walk :=
  match PreAlnConsensusBits with
  | [] => Ok w
  | PreAlnConsensusBit :: rest =>
      w' <- LoopBody ProgThroughPreAln PreAlnConsensusBit w ;;
      ForLoop (S ProgThroughPreAln) rest w'
  end.

End Walk.

(** Lines 231-241. *)
Definition SanityChecks (NewConsensus PostAlignmentConsensusAsStr : str)
  : result str :=
  if str_eq_dec (replace "?" "-" NewConsensus) PostAlignmentConsensusAsStr then
    if contains (str_of "?-") NewConsensus
       || contains (str_of "-?") NewConsensus
    then Fail GapNextToMissing
    else Ok NewConsensus
  else Fail RoundTripFailed.

(** Lines 179-241: from the two consensus strings to the new consensus. *)
Definition Reconstruct (ConsensusAsString PostAlignmentConsensusAsStr : str)
  : result str :=
  '(PreAlnConsensusBits, PreAlnConsensusBitTypes) <-
    SplitSeqByGapsAndMissingCov ConsensusAsString ;;
  '(PostAlnConsensusBits, PostAlnConsensusBitTypes) <-
    SplitSeqByGapsAndMissingCov PostAlignmentConsensusAsStr ;;
  w <- ForLoop PreAlnConsensusBitTypes PostAlnConsensusBits
         PostAlnConsensusBitTypes 0 PreAlnConsensusBits (Walk [] 0) ;;
  SanityChecks (NewConsensus w) PostAlignmentConsensusAsStr.

(** ** Checks on the input pair (lines 74-91) *)

(** The loop over [itertools.izip(ConsensusAsString, RefAsString)]. *)
Fixpoint CheckColumns (ConsensusAsString RefAsString : str) : result unit :=
  match ConsensusAsString, RefAsString with
  | ConsensusBase :: ConsensusRest, RefBase :: RefRest =>
      if Ascii.eqb RefBase "-" then
        if Ascii.eqb ConsensusBase "-" then Fail BothGap
        else if Ascii.eqb ConsensusBase "?" then Fail MissingCovVsGap
        else CheckColumns ConsensusRest RefRest
      else CheckColumns ConsensusRest RefRest
  | _, _ => Ok tt
  end.

Definition CheckPair (ConsensusAsString RefAsString : str) : result unit :=
  if length ConsensusAsString =? length RefAsString
  then CheckColumns ConsensusAsString RefAsString
  else Fail LengthsDiffer.

(** ** The script from its parsed inputs to its printed sequences *)

(** What the script uses of a [SeqRecord]. *)
Record SeqRecord : Type := Seq {
  id : string;
  seq : str
}.

(** [sorted] on identifiers: Python compares [str] values code point by code
    point, as [String.leb] does. *)
Fixpoint insert_sorted (x : string) (l : list string) : list string :=
  match l with
  | [] => [x]
  | y :: l' => if String.leb x y then x :: l else y :: insert_sorted x l'
  end.

Definition sorted (l : list string) : list string :=
  fold_right insert_sorted [] l.

(** Lines 54-71: the two records of [SeqPairWithMissingCov]. *)
Definition FindPair (records : list SeqRecord)
  : result (SeqRecord * SeqRecord) :=
  match records with
  | [consensus; ref] => Ok (consensus, ref)
  | _ :: _ :: _ :: _ => Fail ThreeSeqs
  | _ => Fail LessThanTwoSeqs
  end.

(** Lines 132-135: [ConsensusPosition] is the last index whose record has the
    identifier of the consensus, and stays unbound when there is none. *)
Fixpoint FindConsensus (i : nat) (AlignedSeqs : list SeqRecord)
  (ConsensusID : string) (ConsensusPosition : option nat) : option nat :=
  match AlignedSeqs with
  | [] => ConsensusPosition
  | record :: rest =>
      FindConsensus (S i) rest ConsensusID
        (if String.eqb (id record) ConsensusID then Some i
         else ConsensusPosition)
  end.

(** The parsed command line and input files. *)
Record arguments : Type := Args {
  OtherSeqsToBeAdded : list SeqRecord;
  SeqPairWithMissingCov : list SeqRecord;
  addfragments : bool;
  swap_seqs : bool
}.

(** One run of mafft: the option it is given, the sequences to add and the
    content of the first temporary file. *)
Record mafft_call : Type := Mafft {
  AddOption : bool;
  added : list SeqRecord;
  temp_file_1 : list SeqRecord
}.

(** What lines 53-105 leave for the rest of the script. *)
Record prepared : Type := Prepared {
  consensus : SeqRecord;
  ref : SeqRecord;
  ConsensusAsString : str;
  AllIDs : list string
}.

Section Script.

(** [AuxiliaryFunctions.PropagateNoCoverageChar] is imported by the script
    and is not part of it; the script is embedded for any such function. *)
Variable PropagateNoCoverageChar : str -> str.

(** The external aligner: the parsed content of the second temporary file,
    or [None] when the call does not end with exit status 0. *)
Variable mafft : mafft_call -> option (list SeqRecord).

(** Lines 53-105. *)
Definition Prepare (args : arguments) : result prepared :=
  '(consensus, ref) <- FindPair (SeqPairWithMissingCov args) ;;
  _ <- CheckPair (seq consensus) (seq ref) ;;
  let ConsensusAsString := PropagateNoCoverageChar (seq consensus) in
  let AllIDs :=
    [id consensus; id ref] ++ map id (OtherSeqsToBeAdded args) in
  if length (nodup string_dec AllIDs) <? length AllIDs then Fail DuplicateID
  else Ok (Prepared consensus ref ConsensusAsString AllIDs).

Definition ConsensusNoMissingCovStr (p : prepared) : str :=
  replace "?" "-" (ConsensusAsString p).

(** Lines 108-123: what mafft is run on. *)
Definition MafftInput (args : arguments) (p : prepared) : mafft_call :=
  let ConsensusNoMissingCov :=
    Seq (id (consensus p)) (ConsensusNoMissingCovStr p) in
  let seqs :=
    if swap_seqs args then [ref p; ConsensusNoMissingCov]
    else [ConsensusNoMissingCov; ref p] in
  Mafft (addfragments args) (OtherSeqsToBeAdded args) seqs.

(** Lines 129-245: from the aligned sequences to the printed ones. *)
Definition Finish (p : prepared) (AlignedSeqs : list SeqRecord)
  : result (list SeqRecord) :=
  let ConsensusPosition :=
    FindConsensus 0 AlignedSeqs (id (consensus p)) None in
  if list_eq_dec string_dec (sorted (map id AlignedSeqs)) (sorted (AllIDs p))
  then
    position <-
      match ConsensusPosition with
      | Some i => Ok i
      | None => Fail (NameError 143)
      end ;;
    PostAlignmentConsensus <- item AlignedSeqs position 143 ;;
    let PostAlignmentConsensusAsStr := seq PostAlignmentConsensus in
    if str_eq_dec (delete "-" PostAlignmentConsensusAsStr)
                  (delete "-" (ConsensusNoMissingCovStr p))
    then
      NewConsensus <-
        Reconstruct (ConsensusAsString p) PostAlignmentConsensusAsStr ;;
      Ok (set_item AlignedSeqs position
            (Seq (id PostAlignmentConsensus) NewConsensus))
    else Fail DifferentBases
  else Fail DifferentSeqs.

(** The whole script: the runs of mafft it makes, in order, and how it
    ends. *)
Definition main (args : arguments)
  : list mafft_call * result (list SeqRecord) :=
  match Prepare args with
  | Fail f => ([], Fail f)
  | Ok p =>
      let call := MafftInput args p in
      ([call],
       match mafft call with
       | None => Fail MafftProblem
       | Some AlignedSeqs => Finish p AlignedSeqs
       end)
  end.

End Script.

(** Modelled from the spec: [PropagateNoCoverageChar] is defined in
    [AuxiliaryFunctions], which is not among the sources. The design document
    (4.2) has it replace every gap that borders a run of missing coverage, on
    either side, by the missing-coverage symbol until no gap borders such a
    run: one pass to the right, then one to the left. *)
Fixpoint propagate_right (BaseToLeftIsNoCoverage : bool) (s : str) : str :=
  match s with
  | [] => []
  | base :: rest =>
      if Ascii.eqb base "?" then "?" :: propagate_right true rest
      else if Ascii.eqb base "-" then
        (if BaseToLeftIsNoCoverage then "?" else "-")
          :: propagate_right BaseToLeftIsNoCoverage rest
      else base :: propagate_right false rest
  end.

Definition PropagateNoCoverageCharSpec (s : str) : str :=
  rev (propagate_right false (rev (propagate_right false s))).

(** ** An example run *)

(** A pair with missing coverage, one sequence to add, and an aligner that
    answers with a gap column inserted after the sixth position. *)
Definition example_args : arguments :=
  Args [Seq "other" (str_of "ACGGTTAGT")]
       [Seq "consensus" (str_of "AC??TTGT"); Seq "ref" (str_of "ACGGTTGT")]
       false false.

Definition example_mafft (call : mafft_call) : option (list SeqRecord) :=
  Some [Seq "consensus" (str_of "AC--TT-GT"); Seq "ref" (str_of "ACGGTT-GT");
        Seq "other" (str_of "ACGGTTAGT")].

Definition example_prepared : prepared :=
  Prepared (Seq "consensus" (str_of "AC??TTGT"))
           (Seq "ref" (str_of "ACGGTTGT"))
           (str_of "AC??TTGT") ["consensus"; "ref"; "other"]%string.

Definition example_calls : list mafft_call :=
  [Mafft false [Seq "other" (str_of "ACGGTTAGT")]
         [Seq "consensus" (str_of "AC--TTGT"); Seq "ref" (str_of "ACGGTTGT")]].

Definition example_out : list SeqRecord :=
  [Seq "consensus" (str_of "AC??TT-GT"); Seq "ref" (str_of "ACGGTT-GT");
   Seq "other" (str_of "ACGGTTAGT")].

(** ** Vocabulary of the properties *)

(** The symbol of the classes 0 (missing coverage) and 1 (gap). *)
Definition symbol_of (type : nat) : ascii :=
  if type =? 0 then "?" else "-".

(** [bit] is a run of class [type]: it is not empty and each of its
    characters is of that class. *)
Definition run_of (bit : str) (type : nat) : Prop :=
  bit <> [] /\ Forall (fun c => CharToInt c = type) bit.

Definition adjacent_distinct (types : list nat) : Prop :=
  forall i a b,
    nth_error types i = Some a -> nth_error types (S i) = Some b -> a <> b.

(** [Bits] and [Types] are a segmentation of [seq]. *)
Definition Segmentation (seq : str) (Bits : list str) (Types : list nat)
  : Prop :=
  concat Bits = seq /\ Forall2 run_of Bits Types /\ adjacent_distinct Types.

(** The base content that line 145 compares: gaps (and, before the
    alignment, missing coverage) removed. *)
Definition bases (s : str) : str := delete "-" (replace "?" "-" s).

(** The state of the walk before the run of index [i] is read. *)
Definition WalkBefore (PreTypes : list nat) (PostBits : list str)
  (PostTypes : list nat) (PreBits : list str) (i : nat) (w : walk) : Prop :=
  ForLoop PreTypes PostBits PostTypes 0 (firstn i PreBits) (Walk [] 0) = Ok w.

(** What the greedy loop has accumulated after [k] reads from the cursor
    [cursor]. *)
Definition accumulated (PostBits : list str) (cursor k : nat) : str :=
  concat (firstn k (skipn cursor PostBits)).

(** [a] is immediately followed by [b] somewhere in [s]. *)
Definition adjacent (a b : ascii) (s : str) : Prop :=
  exists i, nth_error s i = Some a /\ nth_error s (S i) = Some b.

(** Some column of the pair has [a] in the consensus and [b] in the
    reference. *)
Definition column (a b : ascii) (ConsensusAsString RefAsString : str)
  : Prop :=
  exists i,
    nth_error ConsensusAsString i = Some a
    /\ nth_error RefAsString i = Some b.

(** First invariant of the walk: before the run of index [i] is read, the
    base content still to be read is the same on both sides. *)
Definition Conserved (PreBits PostBits : list str) (i : nat) (w : walk)
  : Prop :=
  delete "-" (concat (skipn (ProgThroughPostAln w) PostBits))
  = bases (concat (skipn i PreBits)).

(** Second invariant of the walk: the cursor is within the post-alignment
    runs, and the new consensus is as long as the runs it has passed. *)
Definition Covered (PostBits : list str) (w : walk) : Prop :=
  ProgThroughPostAln w <= length PostBits
  /\ length (NewConsensus w)
     = length (concat (firstn (ProgThroughPostAln w) PostBits)).

(** The class a run of class [type] has once "?" is replaced by "-". *)
Definition projected_type (type : nat) : nat :=
  if type =? 0 then 1 else type.

(** The first column with "-" in the reference and "-" or "?" in the
    consensus has [a] in the consensus. *)
Definition first_offending (a : ascii) (ConsensusAsString RefAsString : str)
  : Prop :=
  exists i,
    nth_error ConsensusAsString i = Some a
    /\ nth_error RefAsString i = Some "-"
    /\ forall j,
        j < i -> nth_error RefAsString j = Some "-" ->
        nth_error ConsensusAsString j <> Some "-"
        /\ nth_error ConsensusAsString j <> Some "?".

(** ** Lists and strings *)

Lemma last_item_snoc {A : Type} (l : list A) (x : A) (line : nat) :
  last_item (l ++ [x]) line = Ok x.
Proof.
  induction l as [|y l IH]; simpl; [reflexivity|].
  destruct (l ++ [x]) eqn:E; [destruct l; discriminate|exact IH].
Qed.

Lemma set_last_snoc {A : Type} (f : A -> A) (l : list A) (x : A) (line : nat) :
  set_last f (l ++ [x]) line = Ok (l ++ [f x]).
Proof.
  induction l as [|y l IH]; simpl; [reflexivity|].
  destruct (l ++ [x]) eqn:E; [destruct l; discriminate|].
  rewrite IH. reflexivity.
Qed.

Lemma nth_error_snoc {A : Type} (l : list A) (x : A) :
  nth_error (l ++ [x]) (length l) = Some x.
Proof.
  rewrite nth_error_app2, Nat.sub_diag by lia. reflexivity.
Qed.

Lemma Forall2_nth_error {A B : Type} (R : A -> B -> Prop) l l' i a b :
  Forall2 R l l' ->
  nth_error l i = Some a -> nth_error l' i = Some b -> R a b.
Proof.
  intros H. revert i. induction H as [|x y l l' Hxy _ IH]; intros [|i] Ha Hb;
    simpl in *; try discriminate.
  - injection Ha as <-. injection Hb as <-. exact Hxy.
  - eapply IH; eassumption.
Qed.

Lemma Forall2_snoc_inv {A B : Type} (R : A -> B -> Prop) l x l' y :
  Forall2 R (l ++ [x]) (l' ++ [y]) -> Forall2 R l l' /\ R x y.
Proof.
  intros H. apply Forall2_app_inv_l in H as (l1 & l2 & H1 & H2 & E).
  inversion H2 as [|? y' ? l2' Hxy Hnil]; subst. inversion Hnil; subst.
  apply app_inj_tail in E as [-> ->]. split; assumption.
Qed.

Lemma app_eq_length_inv {A : Type} (a b x y : list A) :
  a ++ x = b ++ y -> length a = length b -> a = b /\ x = y.
Proof.
  revert b. induction a as [|c a IH]; intros [|d b] E L; simpl in *;
    try discriminate.
  - split; [reflexivity|exact E].
  - injection E as -> E. injection L as L.
    destruct (IH _ E L) as [-> ->]. split; reflexivity.
Qed.

Lemma skipn_nth_error {A : Type} (l : list A) i x :
  nth_error l i = Some x -> skipn i l = x :: skipn (S i) l.
Proof.
  revert i. induction l as [|y l IH]; intros [|i] H; simpl in *;
    try discriminate.
  - injection H as ->. reflexivity.
  - rewrite (IH _ H). destruct l; reflexivity.
Qed.

Lemma skipn_length_app {A : Type} (a b : list A) :
  skipn (length a) (a ++ b) = b.
Proof. induction a; simpl; auto. Qed.

Lemma firstn_length_app {A : Type} (a b : list A) :
  firstn (length a) (a ++ b) = a.
Proof. induction a; simpl; congruence. Qed.

Lemma delete_app c (a b : str) : delete c (a ++ b) = delete c a ++ delete c b.
Proof. apply filter_app. Qed.

Lemma replace_app o n (a b : str) :
  replace o n (a ++ b) = replace o n a ++ replace o n b.
Proof. apply map_app. Qed.

Lemma bases_app (a b : str) : bases (a ++ b) = bases a ++ bases b.
Proof. unfold bases. rewrite replace_app, delete_app. reflexivity. Qed.

Lemma length_replace o n (s : str) : length (replace o n s) = length s.
Proof. apply length_map. Qed.

Lemma CharToInt_0 c : CharToInt c = 0 <-> c = "?".
Proof.
  unfold CharToInt. destruct (Ascii.eqb_spec c "?") as [->|N].
  - tauto.
  - destruct (Ascii.eqb c "-"); split; intros H; try discriminate; tauto.
Qed.

Lemma CharToInt_1 c : CharToInt c = 1 <-> c = "-".
Proof.
  unfold CharToInt. destruct (Ascii.eqb_spec c "?") as [->|N].
  - split; discriminate.
  - destruct (Ascii.eqb_spec c "-") as [->|N']; split; intros H;
      try discriminate; tauto.
Qed.

Lemma CharToInt_2 c : CharToInt c = 2 <-> c <> "?" /\ c <> "-".
Proof.
  unfold CharToInt. destruct (Ascii.eqb_spec c "?") as [->|N].
  - split; [discriminate|tauto].
  - destruct (Ascii.eqb_spec c "-") as [->|N']; split; intros H;
      try discriminate; tauto.
Qed.

Lemma CharToInt_symbol c type :
  type = 0 \/ type = 1 -> CharToInt c = type -> c = symbol_of type.
Proof.
  intros [-> | ->] H; [apply CharToInt_0 in H | apply CharToInt_1 in H];
    exact H.
Qed.

(** ** Runs *)

Lemma run_gap_delete bit : run_of bit 1 -> delete "-" bit = [].
Proof.
  intros [_ H]. induction H as [|c bit Hc _ IH]; [reflexivity|].
  apply CharToInt_1 in Hc as ->. exact IH.
Qed.

Lemma run_not_base_bases bit type :
  type = 0 \/ type = 1 -> run_of bit type -> bases bit = [].
Proof.
  intros Ht [_ H]. induction H as [|c bit Hc _ IH]; [reflexivity|].
  apply (CharToInt_symbol _ _ Ht) in Hc as ->.
  destruct Ht as [-> | ->]; exact IH.
Qed.

Lemma run_base_delete bit : run_of bit 2 -> delete "-" bit = bit.
Proof.
  intros [_ H]. induction H as [|c bit Hc _ IH]; [reflexivity|].
  apply CharToInt_2 in Hc as [_ Hc]. unfold delete in *. simpl.
  destruct (Ascii.eqb_spec c "-"); [contradiction|]. simpl. f_equal. exact IH.
Qed.

Lemma run_base_replace bit : run_of bit 2 -> replace "?" "-" bit = bit.
Proof.
  intros [_ H]. induction H as [|c bit Hc _ IH]; [reflexivity|].
  apply CharToInt_2 in Hc as [Hc _]. unfold replace in *. simpl.
  destruct (Ascii.eqb_spec c "?"); [contradiction|]. f_equal. exact IH.
Qed.

Lemma run_base_bases bit : run_of bit 2 -> bases bit = bit.
Proof.
  intros H. unfold bases.
  rewrite (run_base_replace _ H). apply (run_base_delete _ H).
Qed.

Lemma run_not_base_repeat bit type :
  type = 0 \/ type = 1 -> run_of bit type ->
  bit = repeat (symbol_of type) (length bit).
Proof.
  intros Ht [_ H]. induction H as [|c bit Hc _ IH]; [reflexivity|].
  simpl. f_equal; [exact (CharToInt_symbol _ _ Ht Hc)|exact IH].
Qed.

(** ** The segmenter *)

Lemma adjacent_distinct_one t : adjacent_distinct [t].
Proof. intros i a b _ H. destruct i; discriminate. Qed.

Lemma adjacent_distinct_snoc types t c :
  adjacent_distinct (types ++ [t]) -> c <> t ->
  adjacent_distinct ((types ++ [t]) ++ [c]).
Proof.
  intros H Hc i a b Ha Hb.
  destruct (Nat.lt_ge_cases (S i) (length (types ++ [t]))) as [Lt|Ge].
  - rewrite nth_error_app1 in Ha, Hb by lia. exact (H i a b Ha Hb).
  - assert (Hlt : S i < length ((types ++ [t]) ++ [c])).
    { apply nth_error_Some. rewrite Hb. discriminate. }
    rewrite length_app in Hlt. simpl in Hlt.
    assert (Hi : S i = length (types ++ [t])) by lia.
    rewrite Hi, nth_error_snoc in Hb. injection Hb as <-.
    rewrite length_app in Hi. simpl in Hi.
    assert (i = length types) as -> by lia.
    rewrite <- app_assoc in Ha. rewrite nth_error_app2 in Ha by lia.
    rewrite Nat.sub_diag in Ha. injection Ha as <-. congruence.
Qed.

Lemma Segmentation_first c : Segmentation [c] [[c]] [CharToInt c].
Proof.
  repeat split.
  - repeat constructor. discriminate.
  - apply adjacent_distinct_one.
Qed.

Lemma Segmentation_extend seq Bits bit Types type c :
  Segmentation seq (Bits ++ [bit]) (Types ++ [type]) ->
  CharToInt c = type ->
  Segmentation (seq ++ [c]) (Bits ++ [bit ++ [c]]) (Types ++ [type]).
Proof.
  intros (Hcat & Hruns & Hadj) Hc. repeat split.
  - rewrite concat_app in *. simpl in *. rewrite app_nil_r in *.
    rewrite app_assoc, Hcat. reflexivity.
  - apply Forall2_snoc_inv in Hruns as (Hruns & Hne & Hall).
    apply Forall2_app; [exact Hruns|]. repeat constructor.
    + destruct bit; discriminate.
    + apply Forall_app. split; [exact Hall|]. repeat constructor. exact Hc.
  - exact Hadj.
Qed.

Lemma Segmentation_start seq Bits bit Types type c :
  Segmentation seq (Bits ++ [bit]) (Types ++ [type]) ->
  CharToInt c <> type ->
  Segmentation (seq ++ [c]) ((Bits ++ [bit]) ++ [[c]])
    ((Types ++ [type]) ++ [CharToInt c]).
Proof.
  intros (Hcat & Hruns & Hadj) Hc. repeat split.
  - rewrite concat_app, Hcat. simpl. reflexivity.
  - apply Forall2_app; [exact Hruns|]. repeat constructor. discriminate.
  - apply adjacent_distinct_snoc; assumption.
Qed.

Lemma SplitLoop_segmentation seq' :
  forall i seq Bits bit Types type,
    i <> 0 ->
    Segmentation seq (Bits ++ [bit]) (Types ++ [type]) ->
    exists Bits' Types',
      SplitLoop i seq' (Some (Bits ++ [bit], Types ++ [type]))
      = Ok (Some (Bits', Types'))
      /\ Segmentation (seq ++ seq') Bits' Types'.
Proof.
  induction seq' as [|c seq' IH]; intros i seq Bits bit Types type Hi Hseg.
  - exists (Bits ++ [bit]), (Types ++ [type]). rewrite app_nil_r.
    split; [reflexivity|exact Hseg].
  - simpl. unfold SplitBody.
    destruct (Nat.eqb_spec i 0) as [|_]; [contradiction|].
    rewrite last_item_snoc. simpl.
    replace (seq ++ c :: seq') with ((seq ++ [c]) ++ seq')
      by (rewrite <- app_assoc; reflexivity).
    destruct (Nat.eqb_spec (CharToInt c) type) as [E|N].
    + rewrite set_last_snoc. simpl.
      apply IH; [discriminate|]. apply Segmentation_extend; assumption.
    + simpl. apply IH; [discriminate|]. apply Segmentation_start; assumption.
Qed.

(** On a sequence that is not empty the segmenter returns a segmentation of
    it. *)
Lemma SplitSeq_nonempty seq :
  seq <> [] ->
  exists Bits Types,
    SplitSeqByGapsAndMissingCov seq = Ok (Bits, Types)
    /\ Segmentation seq Bits Types.
Proof.
  destruct seq as [|c seq]; [congruence|]. intros _.
  destruct (@SplitLoop_segmentation seq 1 [c] [] [c] [] (CharToInt c))
    as (Bits & Types & Hloop & Hseg).
  - discriminate.
  - apply Segmentation_first.
  - exists Bits, Types. unfold SplitSeqByGapsAndMissingCov.
    change (SplitLoop 0 (c :: seq) None)
      with (SplitLoop 1 seq (Some ([] ++ [[c]], [] ++ [CharToInt c]))).
    rewrite Hloop. split; [reflexivity|exact Hseg].
Qed.

Lemma SplitSeq_Ok seq Bits Types :
  SplitSeqByGapsAndMissingCov seq = Ok (Bits, Types) ->
  seq <> [] /\ Segmentation seq Bits Types.
Proof.
  intros H. destruct seq as [|c seq]; [discriminate|].
  split; [discriminate|].
  destruct (@SplitSeq_nonempty (c :: seq)) as (B & T & E & Hseg);
    [discriminate|].
  rewrite H in E. injection E as <- <-. exact Hseg.
Qed.

Lemma Segmentation_lengths seq Bits Types :
  Segmentation seq Bits Types -> length Bits = length Types.
Proof. intros (_ & H & _). eapply Forall2_length. exact H. Qed.

Lemma Segmentation_run seq Bits Types i bit type :
  Segmentation seq Bits Types ->
  nth_error Bits i = Some bit -> nth_error Types i = Some type ->
  run_of bit type.
Proof. intros (_ & H & _). apply Forall2_nth_error. exact H. Qed.

(** ** The greedy loop *)

Lemma firstn_skipn_split {A : Type} (l a b : list A) c :
  skipn c l = a ++ b -> c <= length l ->
  firstn (c + length a) l = firstn c l ++ a /\ skipn (c + length a) l = b.
Proof.
  intros E Hc.
  assert (Hl : l = (firstn c l ++ a) ++ b).
  { rewrite <- app_assoc, <- E. symmetry. apply firstn_skipn. }
  assert (Hlen : c + length a = length (firstn c l ++ a)).
  { rewrite length_app, length_firstn. lia. }
  rewrite Hlen. clear Hlen E Hc. revert Hl.
  generalize (firstn c l ++ a). intros p ->. split.
  - apply firstn_length_app.
  - apply skipn_length_app.
Qed.

(** The loop of lines 221-223, with its read by index. *)
Lemma WhileLoop_eq L PostBits NewForm cursor :
  WhileLoop L PostBits NewForm cursor
  = if length (delete "-" NewForm) <? L then
      match nth_error PostBits cursor with
      | None => Fail (IndexError 222)
      | Some bit => WhileLoop L PostBits (NewForm ++ bit) (S cursor)
      end
    else Ok (NewForm, cursor).
Proof.
  unfold WhileLoop. destruct (nth_error PostBits cursor) as [bit|] eqn:E.
  - rewrite (skipn_nth_error _ _ _ E). reflexivity.
  - apply nth_error_None in E. rewrite (skipn_all2 _ E). reflexivity.
Qed.

Lemma WhileFrom_reach L k :
  forall remaining NewForm cursor,
    k <= length remaining ->
    (forall j, j < k ->
       length (delete "-" (NewForm ++ concat (firstn j remaining))) < L) ->
    L <= length (delete "-" (NewForm ++ concat (firstn k remaining))) ->
    WhileFrom L remaining NewForm cursor
    = Ok (NewForm ++ concat (firstn k remaining), cursor + k).
Proof.
  induction k as [|k IH]; intros remaining NewForm cursor Hk Hlt Hge.
  - simpl in *. rewrite app_nil_r in *. rewrite Nat.add_0_r.
    destruct remaining; simpl;
      (destruct (Nat.ltb_spec (length (delete "-" NewForm)) L) as [Lt|_];
       [lia|reflexivity]).
  - destruct remaining as [|bit remaining]; [simpl in Hk; lia|].
    pose proof (Hlt 0 (Nat.lt_0_succ k)) as H0. simpl in H0.
    rewrite app_nil_r in H0. simpl.
    destruct (Nat.ltb_spec (length (delete "-" NewForm)) L) as [_|Ge]; [|lia].
    rewrite (IH remaining (NewForm ++ bit) (S cursor)).
    + rewrite <- app_assoc. f_equal. f_equal. lia.
    + simpl in Hk. lia.
    + intros j Hj. specialize (Hlt (S j) (proj1 (Nat.succ_lt_mono _ _) Hj)).
      simpl in Hlt. rewrite <- app_assoc. exact Hlt.
    + simpl in Hge. rewrite <- app_assoc. exact Hge.
Qed.

Lemma WhileFrom_Ok L remaining :
  forall NewForm cursor NewForm' cursor',
    WhileFrom L remaining NewForm cursor = Ok (NewForm', cursor') ->
    exists consumed rest,
      remaining = consumed ++ rest
      /\ NewForm' = NewForm ++ concat consumed
      /\ cursor' = cursor + length consumed.
Proof.
  induction remaining as [|bit remaining IH];
    intros NewForm cursor NewForm' cursor' H; simpl in H;
    destruct (length (delete "-" NewForm) <? L).
  - discriminate.
  - injection H as <- <-. exists [], []. simpl.
    rewrite app_nil_r, Nat.add_0_r. auto.
  - apply IH in H as (consumed & rest & -> & -> & ->).
    exists (bit :: consumed), rest. simpl. rewrite <- app_assoc.
    repeat split. lia.
  - injection H as <- <-. exists [], (bit :: remaining). simpl.
    rewrite app_nil_r, Nat.add_0_r. auto.
Qed.

Lemma WhileFrom_Fail L remaining :
  forall NewForm cursor f,
    WhileFrom L remaining NewForm cursor = Fail f ->
    f = IndexError 222
    /\ length (delete "-" (NewForm ++ concat remaining)) < L.
Proof.
  induction remaining as [|bit remaining IH]; intros NewForm cursor f H;
    simpl in H;
    destruct (Nat.ltb_spec (length (delete "-" NewForm)) L) as [Lt|Ge];
    try discriminate.
  - injection H as <-. simpl. rewrite app_nil_r. auto.
  - apply IH in H as [-> H]. simpl. rewrite <- app_assoc in H. auto.
Qed.

(** ** One iteration of the walk *)

Lemma LoopBody_Ok PreTypes PostBits PostTypes i bit w w' :
  LoopBody PreTypes PostBits PostTypes i bit w = Ok w' ->
  exists type PostBit ptype,
    nth_error PreTypes i = Some type
    /\ nth_error PostBits (ProgThroughPostAln w) = Some PostBit
    /\ nth_error PostTypes (ProgThroughPostAln w) = Some ptype
    /\ (((type = 0 \/ type = 1) /\ ptype = 1
         /\ exists symbol,
             nth_error bit 0 = Some symbol
             /\ w' = Walk (NewConsensus w ++ repeat symbol (length PostBit))
                          (S (ProgThroughPostAln w)))
        \/ (type <> 0 /\ type <> 1 /\ ptype = 2
            /\ length PostBit = length bit
            /\ w' = Walk (NewConsensus w ++ bit) (S (ProgThroughPostAln w)))
        \/ (type <> 0 /\ type <> 1 /\ ptype = 2
            /\ length PostBit <> length bit
            /\ exists consumed rest,
                skipn (ProgThroughPostAln w) PostBits = consumed ++ rest
                /\ delete "-" (concat consumed) = bit
                /\ w' = Walk (NewConsensus w ++ concat consumed)
                             (ProgThroughPostAln w + length consumed))).
Proof.
  unfold LoopBody, item. intros H.
  destruct (nth_error PreTypes i) as [type|]; [|discriminate].
  destruct (nth_error PostBits _) as [PostBit|]; [|discriminate].
  destruct (nth_error PostTypes _) as [ptype|]; [|discriminate].
  exists type, PostBit, ptype. repeat (split; [reflexivity|]). simpl in H.
  destruct (Nat.eqb_spec type 0) as [T0|T0];
    [|destruct (Nat.eqb_spec type 1) as [T1|T1]]; simpl in H.
  1,2: left; destruct (Nat.eqb_spec ptype 1); simpl in H; [|discriminate];
       destruct bit as [|symbol bit]; simpl in H; [discriminate|];
       injection H as <-; repeat (split; auto); exists symbol; auto.
  right. destruct (Nat.eqb_spec ptype 2); simpl in H; [|discriminate].
  destruct (Nat.eqb_spec (length PostBit) (length bit)) as [E|N].
  - left. injection H as <-. auto.
  - right. unfold WhileLoop in H.
    destruct (WhileFrom _ _ _ _) as [[NewForm cursor]|] eqn:W; [|discriminate].
    simpl in H. destruct (str_eq_dec _ _) as [E|]; [|discriminate].
    injection H as <-.
    apply WhileFrom_Ok in W as (consumed & rest & Hskip & -> & ->).
    simpl in E. repeat (split; [assumption|]). exists consumed, rest. auto.
Qed.

(** ** Invariants of the walk *)

Section WalkInvariants.

Variables (PreTypes : list nat) (PostBits : list str) (PostTypes : list nat).
Variable PreBits : list str.

Lemma ForLoop_invariant (I : nat -> walk -> Prop) :
  (forall i bit w w',
      nth_error PreBits i = Some bit -> I i w ->
      LoopBody PreTypes PostBits PostTypes i bit w = Ok w' -> I (S i) w') ->
  forall l j w w',
    (forall k bit,
        nth_error l k = Some bit -> nth_error PreBits (j + k) = Some bit) ->
    I j w ->
    ForLoop PreTypes PostBits PostTypes j l w = Ok w' ->
    I (j + length l) w'.
Proof.
  intros Hstep. induction l as [|bit l IH]; intros j w w' Hl Hj H;
    simpl in H.
  - injection H as <-. simpl. rewrite Nat.add_0_r. exact Hj.
  - destruct (LoopBody _ _ _ j bit w) as [w1|] eqn:E; [|discriminate].
    simpl in H. simpl length. rewrite Nat.add_succ_r.
    apply (IH (S j) w1 w'); [| |exact H].
    + intros k b Hk. specialize (Hl (S k) b Hk).
      rewrite Nat.add_succ_r in Hl. exact Hl.
    + apply (Hstep j bit w w1); [|exact Hj|exact E].
      specialize (Hl 0 bit eq_refl). rewrite Nat.add_0_r in Hl. exact Hl.
Qed.

Lemma WalkBefore_invariant (I : nat -> walk -> Prop) i w :
  (forall i bit w w',
      nth_error PreBits i = Some bit -> I i w ->
      LoopBody PreTypes PostBits PostTypes i bit w = Ok w' -> I (S i) w') ->
  I 0 (Walk [] 0) ->
  i <= length PreBits ->
  WalkBefore PreTypes PostBits PostTypes PreBits i w ->
  I i w.
Proof.
  intros Hstep H0 Hi H.
  apply (ForLoop_invariant I Hstep) with (j := 0) in H; [| |exact H0].
  - rewrite length_firstn, Nat.min_l in H by exact Hi. exact H.
  - intros k bit Hk. rewrite nth_error_firstn in Hk.
    destruct (k <? i); [exact Hk|discriminate].
Qed.

Lemma Covered_step i bit w w' :
  Covered PostBits w ->
  LoopBody PreTypes PostBits PostTypes i bit w = Ok w' ->
  Covered PostBits w'.
Proof.
  intros [Hc Hlen] H.
  apply LoopBody_Ok in H
    as (type & PostBit & ptype & _ & HPost & _ & Hcases).
  apply skipn_nth_error in HPost.
  change (PostBit :: skipn (S (ProgThroughPostAln w)) PostBits)
    with ([PostBit] ++ skipn (S (ProgThroughPostAln w)) PostBits) in HPost.
  pose proof (firstn_skipn_split _ _ _ _ HPost Hc) as [Hfirst Hskip].
  simpl length in Hfirst, Hskip. rewrite Nat.add_1_r in Hfirst, Hskip.
  assert (Hc' : S (ProgThroughPostAln w) <= length PostBits).
  { apply Nat.le_succ_l. apply nth_error_Some.
    rewrite <- (firstn_skipn (ProgThroughPostAln w) PostBits) at 1.
    rewrite nth_error_app2 by (rewrite length_firstn; lia).
    rewrite length_firstn, Nat.min_l, Nat.sub_diag, HPost by exact Hc.
    discriminate. }
  destruct Hcases as [(_ & _ & symbol & _ & ->)
                     |[(_ & _ & _ & Hl & ->)
                      |(_ & _ & _ & _ & consumed & rest & Hs & _ & ->)]];
    unfold Covered; cbn [NewConsensus ProgThroughPostAln].
  - split; [exact Hc'|].
    rewrite Hfirst, concat_app, !length_app, repeat_length, Hlen. simpl.
    rewrite app_nil_r. reflexivity.
  - split; [exact Hc'|].
    rewrite Hfirst, concat_app, !length_app, Hlen. simpl.
    rewrite app_nil_r, Hl. reflexivity.
  - pose proof (firstn_skipn_split _ _ _ _ Hs Hc) as [Hf _]. split.
    + rewrite <- (firstn_skipn (ProgThroughPostAln w) PostBits), Hs.
      rewrite !length_app, length_firstn. lia.
    + rewrite Hf, concat_app, !length_app, Hlen. reflexivity.
Qed.

Lemma Covered_start : Covered PostBits (Walk [] 0).
Proof. split; simpl; [lia|reflexivity]. Qed.

Lemma ForLoop_Covered w :
  ForLoop PreTypes PostBits PostTypes 0 PreBits (Walk [] 0) = Ok w ->
  Covered PostBits w.
Proof.
  intros H.
  apply (ForLoop_invariant (fun _ => Covered PostBits)) with (j := 0) in H.
  - exact H.
  - intros i bit w0 w1 _. apply Covered_step.
  - intros k bit Hk. exact Hk.
  - apply Covered_start.
Qed.

Variables (pre post : str).
Hypothesis Hpre : Segmentation pre PreBits PreTypes.
Hypothesis Hpost : Segmentation post PostBits PostTypes.

Lemma Conserved_start :
  delete "-" post = bases pre -> Conserved PreBits PostBits 0 (Walk [] 0).
Proof.
  intros H. unfold Conserved. simpl.
  destruct Hpre as [-> _]. destruct Hpost as [-> _]. exact H.
Qed.

Lemma pre_type i bit :
  nth_error PreBits i = Some bit ->
  exists type, nth_error PreTypes i = Some type /\ run_of bit type.
Proof.
  intros H. destruct (nth_error PreTypes i) as [type|] eqn:E.
  - exists type. split; [reflexivity|].
    exact (Segmentation_run _ _ _ _ _ _ Hpre H E).
  - apply nth_error_None in E.
    rewrite <- (Segmentation_lengths _ _ _ Hpre) in E.
    apply nth_error_None in E. congruence.
Qed.

(** The fast path copies the characters of the run at the cursor. *)
Lemma Conserved_same_length i bit w PostBit :
  Conserved PreBits PostBits i w ->
  nth_error PreBits i = Some bit ->
  nth_error PreTypes i = Some 2 ->
  nth_error PostBits (ProgThroughPostAln w) = Some PostBit ->
  nth_error PostTypes (ProgThroughPostAln w) = Some 2 ->
  length PostBit = length bit ->
  bit = PostBit
  /\ Conserved PreBits PostBits (S i)
       (Walk (NewConsensus w ++ bit) (S (ProgThroughPostAln w))).
Proof.
  intros Hcons Hbit Htype HPost Hptype Hlen. unfold Conserved in *.
  pose proof (Segmentation_run _ _ _ _ _ _ Hpre Hbit Htype) as Rpre.
  pose proof (Segmentation_run _ _ _ _ _ _ Hpost HPost Hptype) as Rpost.
  rewrite (skipn_nth_error _ _ _ Hbit), (skipn_nth_error _ _ _ HPost) in Hcons.
  simpl in Hcons.
  rewrite delete_app, bases_app, (run_base_delete _ Rpost),
    (run_base_bases _ Rpre) in Hcons.
  apply app_eq_length_inv in Hcons as [E Hrest]; [|exact Hlen].
  split; [congruence|exact Hrest].
Qed.

Lemma Conserved_step i bit w w' :
  nth_error PreBits i = Some bit ->
  Conserved PreBits PostBits i w ->
  LoopBody PreTypes PostBits PostTypes i bit w = Ok w' ->
  Conserved PreBits PostBits (S i) w'.
Proof.
  intros Hbit Hcons H.
  apply LoopBody_Ok in H
    as (type & PostBit & ptype & Htype & HPost & Hptype & Hcases).
  pose proof (Segmentation_run _ _ _ _ _ _ Hpre Hbit Htype) as Rpre.
  pose proof (Segmentation_run _ _ _ _ _ _ Hpost HPost Hptype) as Rpost.
  assert (Htype2 : type <> 0 -> type <> 1 -> type = 2).
  { destruct Rpre as [Hne Hall]. destruct bit as [|c bit]; [congruence|].
    inversion Hall as [|? ? Hc _]; subst. unfold CharToInt.
    destruct (Ascii.eqb c "?"); [congruence|].
    destruct (Ascii.eqb c "-"); congruence. }
  destruct Hcases as [(Ht & -> & symbol & _ & ->)
                     |[(T0 & T1 & -> & Hl & ->)
                      |(T0 & T1 & -> & _ & consumed & rest & Hs & Hd & ->)]].
  - unfold Conserved in *. simpl.
    rewrite (skipn_nth_error _ _ _ Hbit), (skipn_nth_error _ _ _ HPost)
      in Hcons.
    simpl in Hcons.
    rewrite delete_app, bases_app, (run_gap_delete _ Rpost),
      (run_not_base_bases _ _ Ht Rpre) in Hcons.
    exact Hcons.
  - rewrite (Htype2 T0 T1) in Htype.
    exact (proj2 (Conserved_same_length _ _ _ _
                    Hcons Hbit Htype HPost Hptype Hl)).
  - rewrite (Htype2 T0 T1) in Rpre. unfold Conserved in *. simpl.
    rewrite (skipn_nth_error _ _ _ Hbit), Hs in Hcons. simpl in Hcons.
    rewrite concat_app, delete_app, bases_app, Hd, (run_base_bases _ Rpre)
      in Hcons.
    apply app_inv_head in Hcons.
    rewrite Nat.add_comm, <- skipn_skipn, Hs, skipn_length_app.
    exact Hcons.
Qed.

Lemma WalkBefore_Conserved i w :
  delete "-" post = bases pre ->
  i <= length PreBits ->
  WalkBefore PreTypes PostBits PostTypes PreBits i w ->
  Conserved PreBits PostBits i w.
Proof.
  intros Hcons. apply WalkBefore_invariant.
  - intros j bit w0 w1. apply Conserved_step.
  - apply Conserved_start. exact Hcons.
Qed.

End WalkInvariants.

(** ** The three cases of one iteration *)

Lemma LoopBody_reads PreTypes PostBits PostTypes i bit w type PostBit ptype :
  nth_error PreTypes i = Some type ->
  nth_error PostBits (ProgThroughPostAln w) = Some PostBit ->
  nth_error PostTypes (ProgThroughPostAln w) = Some ptype ->
  LoopBody PreTypes PostBits PostTypes i bit w
  = if (type =? 0) || (type =? 1) then
      if negb (ptype =? 1) then Fail GapBecameOther
      else
        symbol <- item bit 0 201 ;;
        Ok (Walk (NewConsensus w ++ repeat symbol (length PostBit))
                 (S (ProgThroughPostAln w)))
    else if negb (ptype =? 2) then Fail SeqBecameOther
    else if length PostBit =? length bit then
      Ok (Walk (NewConsensus w ++ bit) (S (ProgThroughPostAln w)))
    else
      '(NewForm, cursor) <-
        WhileLoop (length bit) PostBits [] (ProgThroughPostAln w) ;;
      if str_eq_dec (delete "-" NewForm) bit then
        Ok (Walk (NewConsensus w ++ NewForm) cursor)
      else Fail FragmentMismatch.
Proof.
  intros H1 H2 H3. unfold LoopBody, item. rewrite H1, H2, H3. reflexivity.
Qed.

(** The fast path compares lengths only. *)
Lemma LoopBody_same_length PreTypes PostBits PostTypes i bit w PostBit :
  nth_error PreTypes i = Some 2 ->
  nth_error PostBits (ProgThroughPostAln w) = Some PostBit ->
  nth_error PostTypes (ProgThroughPostAln w) = Some 2 ->
  length PostBit = length bit ->
  LoopBody PreTypes PostBits PostTypes i bit w
  = Ok (Walk (NewConsensus w ++ bit) (S (ProgThroughPostAln w))).
Proof.
  intros H1 H2 H3 Hlen. rewrite (LoopBody_reads _ _ _ _ bit _ _ _ _ H1 H2 H3).
  simpl. rewrite Hlen, Nat.eqb_refl. reflexivity.
Qed.

(** C3: for a pre-alignment run of class missing coverage (0) or gap (1) and
    the post-alignment run at the cursor, the iteration fails with the
    message of line 197, a ReconciliationError, when that run is not of class
    gap; otherwise it appends as many copies of the pre-alignment symbol as
    the post-alignment run is long and moves the cursor by one. *)
Theorem gap_or_missing_run PreTypes PostBits PostTypes i bit type w
  PostBit ptype :
  nth_error PreTypes i = Some type ->
  type = 0 \/ type = 1 ->
  run_of bit type ->
  nth_error PostBits (ProgThroughPostAln w) = Some PostBit ->
  nth_error PostTypes (ProgThroughPostAln w) = Some ptype ->
  bit = repeat (symbol_of type) (length bit)
  /\ kind GapBecameOther = Some ReconciliationError
  /\ (ptype <> 1 ->
      LoopBody PreTypes PostBits PostTypes i bit w = Fail GapBecameOther)
  /\ (ptype = 1 ->
      LoopBody PreTypes PostBits PostTypes i bit w
      = Ok (Walk (NewConsensus w
                  ++ repeat (symbol_of type) (length PostBit))
                 (S (ProgThroughPostAln w)))).
Proof.
  intros H1 Ht Hrun H2 H3.
  pose proof (run_not_base_repeat _ _ Ht Hrun) as Hbit.
  rewrite (LoopBody_reads _ _ _ _ bit _ _ _ _ H1 H2 H3).
  assert (Hor : (type =? 0) || (type =? 1) = true)
    by (destruct Ht as [-> | ->]; reflexivity).
  rewrite Hor. repeat split.
  - exact Hbit.
  - intros N. apply Nat.eqb_neq in N. rewrite N. reflexivity.
  - intros ->. simpl. rewrite Hbit.
    destruct Hrun as [Hne _]. destruct bit as [|c bit]; [congruence|].
    reflexivity.
Qed.

Lemma gap_or_missing_run_witness :
  LoopBody [2; 0; 2] [str_of "AC"; str_of "---"; str_of "TT"] [2; 1; 2] 1
    (str_of "??") (Walk (str_of "AC") 1)
  = Ok (Walk (str_of "AC???") 2).
Proof.
  apply (gap_or_missing_run [2; 0; 2]
           [str_of "AC"; str_of "---"; str_of "TT"] [2; 1; 2] 1 (str_of "??")
           0 (Walk (str_of "AC") 1) (str_of "---") 1);
    try reflexivity.
  - left. reflexivity.
  - split; [discriminate|]. repeat constructor.
Defined.

(** C2, amended: for a pre-alignment run of class base (2) and a
    post-alignment run at the cursor of another length, the iteration first
    fails with the message of line 211 when that run is not of class base;
    when it is, and [k] is the first number of runs from the cursor whose
    characters other than gaps are at least as many as those of the
    pre-alignment run, it fails with the message of line 225 if these
    characters are not the pre-alignment run, and otherwise appends the [k]
    runs as they are and moves the cursor past them. Both messages are
    ReconciliationErrors. *)
Theorem base_run_greedy PreTypes PostBits PostTypes i bit w PostBit ptype :
  nth_error PreTypes i = Some 2 ->
  nth_error PostBits (ProgThroughPostAln w) = Some PostBit ->
  nth_error PostTypes (ProgThroughPostAln w) = Some ptype ->
  length PostBit <> length bit ->
  kind SeqBecameOther = Some ReconciliationError
  /\ kind FragmentMismatch = Some ReconciliationError
  /\ (ptype <> 2 ->
      LoopBody PreTypes PostBits PostTypes i bit w = Fail SeqBecameOther)
  /\ (ptype = 2 ->
      forall k,
        k <= length PostBits - ProgThroughPostAln w ->
        (forall j, j < k ->
           length (delete "-" (accumulated PostBits (ProgThroughPostAln w) j))
           < length bit) ->
        length bit
        <= length (delete "-"
                    (accumulated PostBits (ProgThroughPostAln w) k)) ->
        (delete "-" (accumulated PostBits (ProgThroughPostAln w) k) <> bit ->
         LoopBody PreTypes PostBits PostTypes i bit w = Fail FragmentMismatch)
        /\ (delete "-" (accumulated PostBits (ProgThroughPostAln w) k) = bit ->
            LoopBody PreTypes PostBits PostTypes i bit w
            = Ok (Walk (NewConsensus w
                        ++ accumulated PostBits (ProgThroughPostAln w) k)
                       (ProgThroughPostAln w + k)))).
Proof.
  intros H1 H2 H3 Hlen. rewrite (LoopBody_reads _ _ _ _ bit _ _ _ _ H1 H2 H3).
  simpl. repeat split.
  - intros N. apply Nat.eqb_neq in N. rewrite N. reflexivity.
  - intros N. subst ptype. simpl.
    apply Nat.eqb_neq in Hlen. rewrite Hlen. unfold WhileLoop.
    rewrite (WhileFrom_reach (length bit) k) by
      (try rewrite length_skipn; assumption).
    simpl. destruct (str_eq_dec _ _) as [E|_]; [|reflexivity].
    contradiction.
  - intros E. subst ptype. simpl.
    apply Nat.eqb_neq in Hlen. rewrite Hlen. unfold WhileLoop.
    rewrite (WhileFrom_reach (length bit) k) by
      (try rewrite length_skipn; assumption).
    simpl. destruct (str_eq_dec _ _) as [_|N]; [reflexivity|].
    contradiction.
Qed.

Lemma base_run_greedy_witness :
  LoopBody [2] [str_of "TT"; str_of "-"; str_of "GT"] [2; 1; 2] 0
    (str_of "TTGT") (Walk [] 0)
  = Ok (Walk (str_of "TT-GT") 3).
Proof.
  pose proof (base_run_greedy [2] [str_of "TT"; str_of "-"; str_of "GT"]
                [2; 1; 2] 0 (str_of "TTGT") (Walk [] 0) (str_of "TT") 2
                eq_refl eq_refl eq_refl ltac:(discriminate))
    as (_ & _ & _ & H).
  destruct (H eq_refl 3) as [_ Hok].
  - simpl. lia.
  - intros [|[|[|j]]] Hj; simpl; lia.
  - simpl. lia.
  - apply Hok. reflexivity.
Defined.

(** The claim C2 without the amendment fails: with a gap run at the cursor
    the runs are not accumulated, although accumulating two of them would
    give back the pre-alignment run; and when the runs from the cursor on
    hold too few characters, the read of line 222 is out of range. *)
Lemma base_run_greedy_counterexample :
  SplitSeqByGapsAndMissingCov (str_of "AC") = Ok ([str_of "AC"], [2])
  /\ SplitSeqByGapsAndMissingCov (str_of "-AC")
     = Ok ([str_of "-"; str_of "AC"], [1; 2])
  /\ length (str_of "-") <> length (str_of "AC")
  /\ delete "-" (accumulated [str_of "-"; str_of "AC"] 0 2) = str_of "AC"
  /\ LoopBody [2] [str_of "-"; str_of "AC"] [1; 2] 0 (str_of "AC") (Walk [] 0)
     = Fail SeqBecameOther
  /\ Reconstruct (str_of "AC") (str_of "-AC") = Fail SeqBecameOther
  /\ LoopBody [2] [str_of "A"] [2] 0 (str_of "ACG") (Walk [] 0)
     = Fail (IndexError 222).
Proof. repeat split; discriminate. Qed.

(** ** The walk after the base conservation check *)

Lemma run_type_cases bit type :
  run_of bit type -> type = 0 \/ type = 1 \/ type = 2.
Proof.
  intros [Hne Hall]. destruct bit as [|c bit]; [congruence|].
  inversion Hall as [|? ? Hc _]; subst. unfold CharToInt.
  destruct (Ascii.eqb c "?"); [auto|]. destruct (Ascii.eqb c "-"); auto.
Qed.

Lemma Segmentation_nonempty seq Bits Types bit :
  Segmentation seq Bits Types -> In bit Bits -> bit <> [].
Proof.
  intros (_ & H & _). induction H as [|b t Bits Types [Hne _] _ IH].
  - intros [].
  - intros [<-|Hin]; auto.
Qed.

Lemma Conserved_base_in_bounds pre post PreBits PreTypes PostBits PostTypes
  i bit w :
  Segmentation pre PreBits PreTypes ->
  Segmentation post PostBits PostTypes ->
  Conserved PreBits PostBits i w ->
  nth_error PreBits i = Some bit ->
  nth_error PreTypes i = Some 2 ->
  length bit
  <= length (delete "-" (concat (skipn (ProgThroughPostAln w) PostBits)))
  /\ ProgThroughPostAln w < length PostBits.
Proof.
  intros Hpre Hpost Hcons Hbit Htype.
  pose proof (Segmentation_run _ _ _ _ _ _ Hpre Hbit Htype) as Rpre.
  unfold Conserved in Hcons.
  rewrite (skipn_nth_error _ _ _ Hbit) in Hcons. simpl in Hcons.
  rewrite bases_app, (run_base_bases _ Rpre) in Hcons.
  assert (Hlen : length bit
                 <= length (delete "-"
                      (concat (skipn (ProgThroughPostAln w) PostBits)))).
  { rewrite Hcons, length_app. lia. }
  split; [exact Hlen|].
  destruct (Nat.lt_ge_cases (ProgThroughPostAln w) (length PostBits))
    as [Lt|Ge]; [exact Lt|].
  rewrite (skipn_all2 _ Ge) in Hlen. simpl in Hlen.
  destruct Rpre as [Hne _]. destruct bit; [congruence|simpl in Hlen; lia].
Qed.

(** C9, amended: after the base conservation check of line 145 has passed,
    whenever the walk reaches a pre-alignment run, the read at the cursor of
    line 189 is in range if that run is of class base, and the only read of
    the iteration that can be out of range is that of line 189 for a run of
    class gap or missing coverage, once the post-alignment runs are used up;
    the reads of line 222 inside the greedy loop are always in range. *)
Theorem cursor_reads_in_bounds pre post PreBits PreTypes PostBits PostTypes
  i bit w :
  SplitSeqByGapsAndMissingCov pre = Ok (PreBits, PreTypes) ->
  SplitSeqByGapsAndMissingCov post = Ok (PostBits, PostTypes) ->
  delete "-" post = delete "-" (replace "?" "-" pre) ->
  WalkBefore PreTypes PostBits PostTypes PreBits i w ->
  nth_error PreBits i = Some bit ->
  (nth_error PreTypes i = Some 2 -> ProgThroughPostAln w < length PostBits)
  /\ (forall line,
        LoopBody PreTypes PostBits PostTypes i bit w
        = Fail (IndexError line) ->
        line = 189
        /\ length PostBits <= ProgThroughPostAln w
        /\ exists type,
            nth_error PreTypes i = Some type /\ (type = 0 \/ type = 1)).
Proof.
  intros Hpre Hpost Hbases Hwalk Hbit.
  apply SplitSeq_Ok in Hpre as [_ Hpre].
  apply SplitSeq_Ok in Hpost as [_ Hpost].
  assert (Hi : i <= length PreBits).
  { apply Nat.lt_le_incl. apply nth_error_Some. congruence. }
  pose proof (WalkBefore_Conserved _ _ _ _ _ _ Hpre Hpost _ _ Hbases Hi Hwalk)
    as Hcons.
  assert (Hin : nth_error PreTypes i = Some 2 ->
                ProgThroughPostAln w < length PostBits).
  { intros Htype.
    exact (proj2 (Conserved_base_in_bounds _ _ _ _ _ _ _ _ _
                    Hpre Hpost Hcons Hbit Htype)). }
  split; [exact Hin|]. intros line H.
  destruct (pre_type _ _ _ Hpre _ _ Hbit) as (type & Htype & Rpre).
  destruct (nth_error PostBits (ProgThroughPostAln w)) as [PostBit|] eqn:HPost.
  - exfalso.
    destruct (nth_error PostTypes (ProgThroughPostAln w)) as [ptype|] eqn:Hpt.
    + rewrite (LoopBody_reads _ _ _ _ bit _ _ _ _ Htype HPost Hpt) in H.
      destruct (run_type_cases _ _ Rpre) as [-> | [-> | ->]]; simpl in H.
      1,2: destruct (ptype =? 1); simpl in H; [|discriminate];
           destruct Rpre as [Hne _]; destruct bit; [congruence|discriminate].
      destruct (ptype =? 2); simpl in H; [|discriminate].
      destruct (length PostBit =? length bit); [discriminate|].
      unfold WhileLoop in H.
      destruct (WhileFrom _ _ _ _) as [[NewForm cursor]|f] eqn:W.
      * simpl in H. destruct (str_eq_dec _ _); discriminate.
      * apply WhileFrom_Fail in W as [_ W]. simpl in W.
        pose proof (proj1 (Conserved_base_in_bounds _ _ _ _ _ _ _ _ _
                             Hpre Hpost Hcons Hbit Htype)).
        lia.
    + apply nth_error_None in Hpt.
      rewrite <- (Segmentation_lengths _ _ _ Hpost) in Hpt.
      apply nth_error_None in Hpt. congruence.
  - unfold LoopBody, item in H. rewrite Htype, HPost in H. simpl in H.
    injection H as <-. split; [reflexivity|].
    apply nth_error_None in HPost. split; [exact HPost|].
    exists type. split; [exact Htype|].
    destruct (run_type_cases _ _ Rpre) as [-> | [-> | ->]]; auto.
    specialize (Hin Htype). lia.
Qed.

Lemma cursor_reads_in_bounds_witness :
  2 < length [str_of "AC"; str_of "--"; str_of "TT"; str_of "-"; str_of "GT"].
Proof.
  apply (cursor_reads_in_bounds (str_of "AC??TTGT") (str_of "AC--TT-GT")
           [str_of "AC"; str_of "??"; str_of "TTGT"] [2; 0; 2]
           [str_of "AC"; str_of "--"; str_of "TT"; str_of "-"; str_of "GT"]
           [2; 1; 2; 1; 2] 2 (str_of "TTGT") (Walk (str_of "AC??") 2));
    reflexivity.
Defined.

(** The claim C9 as stated fails: the identifier check and the base
    conservation check pass, and the read of line 189 is out of range. *)
Lemma cursor_reads_in_bounds_counterexample :
  let p := Prepared (Seq "consensus" (str_of "A?")) (Seq "ref" (str_of "AT"))
             (str_of "A?") ["consensus"; "ref"]%string in
  let AlignedSeqs := [Seq "consensus" (str_of "A"); Seq "ref" (str_of "A")] in
  sorted (map id AlignedSeqs) = sorted (AllIDs p)
  /\ delete "-" (str_of "A") = delete "-" (ConsensusNoMissingCovStr p)
  /\ SplitSeqByGapsAndMissingCov (str_of "A?")
     = Ok ([str_of "A"; str_of "?"], [2; 0])
  /\ SplitSeqByGapsAndMissingCov (str_of "A") = Ok ([str_of "A"], [2])
  /\ WalkBefore [2; 0] [str_of "A"] [2] [str_of "A"; str_of "?"] 1
       (Walk (str_of "A") 1)
  /\ ~ 1 < length [str_of "A"]
  /\ LoopBody [2; 0] [str_of "A"] [2] 1 (str_of "?") (Walk (str_of "A") 1)
     = Fail (IndexError 189)
  /\ Finish p AlignedSeqs = Fail (IndexError 189).
Proof. simpl. repeat split. intros H. inversion H as [|? H']. inversion H'. Qed.

(** C10: in the fast path the pre-alignment run is appended after a
    comparison of the lengths only; once the base conservation check of
    line 145 has passed and the walk has reached the run, its characters are
    those of the post-alignment run at the cursor. *)
Theorem fast_path_characters pre post PreBits PreTypes PostBits PostTypes
  i bit w PostBit :
  SplitSeqByGapsAndMissingCov pre = Ok (PreBits, PreTypes) ->
  SplitSeqByGapsAndMissingCov post = Ok (PostBits, PostTypes) ->
  delete "-" post = delete "-" (replace "?" "-" pre) ->
  WalkBefore PreTypes PostBits PostTypes PreBits i w ->
  nth_error PreBits i = Some bit ->
  nth_error PreTypes i = Some 2 ->
  nth_error PostBits (ProgThroughPostAln w) = Some PostBit ->
  nth_error PostTypes (ProgThroughPostAln w) = Some 2 ->
  length PostBit = length bit ->
  LoopBody PreTypes PostBits PostTypes i bit w
  = Ok (Walk (NewConsensus w ++ bit) (S (ProgThroughPostAln w)))
  /\ bit = PostBit.
Proof.
  intros Hpre Hpost Hbases Hwalk Hbit Htype HPost Hptype Hlen.
  split; [apply (LoopBody_same_length _ _ _ _ _ _ _ Htype HPost Hptype Hlen)|].
  apply SplitSeq_Ok in Hpre as [_ Hpre].
  apply SplitSeq_Ok in Hpost as [_ Hpost].
  assert (Hi : i <= length PreBits).
  { apply Nat.lt_le_incl. apply nth_error_Some. congruence. }
  pose proof (WalkBefore_Conserved _ _ _ _ _ _ Hpre Hpost _ _ Hbases Hi Hwalk)
    as Hcons.
  exact (proj1 (Conserved_same_length _ _ _ _ _ _ Hpre Hpost _ _ _ _
                  Hcons Hbit Htype HPost Hptype Hlen)).
Qed.

Lemma fast_path_characters_witness :
  LoopBody [2; 0; 2] [str_of "AC"; str_of "---"; str_of "TT"] [2; 1; 2] 2
    (str_of "TT") (Walk (str_of "AC???") 2)
  = Ok (Walk (str_of "AC???TT") 3)
  /\ str_of "TT" = str_of "TT".
Proof.
  apply (fast_path_characters (str_of "AC??TT") (str_of "AC---TT")
           [str_of "AC"; str_of "??"; str_of "TT"] [2; 0; 2]
           [str_of "AC"; str_of "---"; str_of "TT"] [2; 1; 2] 2 (str_of "TT")
           (Walk (str_of "AC???") 2) (str_of "TT"));
    reflexivity.
Defined.

(** ** The sanity checks *)

Lemma adjacent_contains a b s :
  adjacent a b s -> contains [a; b] s = true.
Proof.
  intros [i [Ha Hb]]. revert i Ha Hb.
  induction s as [|c s IH]; intros [|i] Ha Hb; simpl in Ha, Hb;
    try discriminate.
  - injection Ha as ->. destruct s as [|d s]; [discriminate|].
    injection Hb as ->. simpl. rewrite !Ascii.eqb_refl. reflexivity.
  - simpl contains. rewrite (IH i Ha Hb). apply orb_true_r.
Qed.

Lemma SanityChecks_Ok NewConsensus post out :
  SanityChecks NewConsensus post = Ok out ->
  out = NewConsensus
  /\ replace "?" "-" NewConsensus = post
  /\ ~ adjacent "?" "-" NewConsensus
  /\ ~ adjacent "-" "?" NewConsensus.
Proof.
  unfold SanityChecks. intros H.
  destruct (str_eq_dec _ _) as [E|]; [|discriminate].
  destruct (contains (str_of "?-") NewConsensus) eqn:C1; [discriminate|].
  destruct (contains (str_of "-?") NewConsensus) eqn:C2; [discriminate|].
  injection H as <-. repeat split; [exact E| |]; intros A;
    apply adjacent_contains in A; unfold str_of in *; simpl in *; congruence.
Qed.

Lemma SanityChecks_round_trip NewConsensus post :
  replace "?" "-" NewConsensus <> post ->
  SanityChecks NewConsensus post = Fail RoundTripFailed.
Proof.
  unfold SanityChecks. intros N.
  destruct (str_eq_dec _ _); [contradiction|reflexivity].
Qed.

Lemma SanityChecks_adjacent NewConsensus post :
  adjacent "?" "-" NewConsensus \/ adjacent "-" "?" NewConsensus ->
  exists f,
    SanityChecks NewConsensus post = Fail f /\ kind f = Some InvariantError.
Proof.
  unfold SanityChecks. intros A.
  destruct (str_eq_dec _ _); [|exists RoundTripFailed; auto].
  exists GapNextToMissing. split; [|reflexivity].
  destruct A as [A|A]; apply adjacent_contains in A;
    unfold str_of; simpl; rewrite A; [|rewrite orb_true_r]; reflexivity.
Qed.

Lemma Reconstruct_Ok pre post out :
  Reconstruct pre post = Ok out ->
  exists PreBits PreTypes PostBits PostTypes w,
    SplitSeqByGapsAndMissingCov pre = Ok (PreBits, PreTypes)
    /\ SplitSeqByGapsAndMissingCov post = Ok (PostBits, PostTypes)
    /\ ForLoop PreTypes PostBits PostTypes 0 PreBits (Walk [] 0) = Ok w
    /\ SanityChecks (NewConsensus w) post = Ok out.
Proof.
  unfold Reconstruct. intros H.
  destruct (SplitSeqByGapsAndMissingCov pre) as [[PreBits PreTypes]|];
    [|discriminate].
  destruct (SplitSeqByGapsAndMissingCov post) as [[PostBits PostTypes]|];
    [|discriminate].
  simpl in H.
  destruct (ForLoop _ _ _ _ _ _) as [w|] eqn:W; [|discriminate].
  exists PreBits, PreTypes, PostBits, PostTypes, w. auto.
Qed.

(** A failing iteration is the failure of the whole reconstruction. *)
Lemma ForLoop_app PreTypes PostBits PostTypes l1 :
  forall l2 j w,
    ForLoop PreTypes PostBits PostTypes j (l1 ++ l2) w
    = (w' <- ForLoop PreTypes PostBits PostTypes j l1 w ;;
       ForLoop PreTypes PostBits PostTypes (j + length l1) l2 w').
Proof.
  induction l1 as [|bit l1 IH]; intros l2 j w; simpl.
  - rewrite Nat.add_0_r. reflexivity.
  - destruct (LoopBody _ _ _ j bit w) as [w1|]; simpl; [|reflexivity].
    rewrite IH, Nat.add_succ_r. reflexivity.
Qed.

Lemma iteration_failure PreTypes PostBits PostTypes PreBits i bit w f :
  WalkBefore PreTypes PostBits PostTypes PreBits i w ->
  nth_error PreBits i = Some bit ->
  LoopBody PreTypes PostBits PostTypes i bit w = Fail f ->
  ForLoop PreTypes PostBits PostTypes 0 PreBits (Walk [] 0) = Fail f.
Proof.
  unfold WalkBefore. intros Hwalk Hbit Hbody.
  replace (ForLoop PreTypes PostBits PostTypes 0 PreBits (Walk [] 0))
    with (ForLoop PreTypes PostBits PostTypes 0
            (firstn i PreBits ++ skipn i PreBits) (Walk [] 0))
    by (rewrite firstn_skipn; reflexivity).
  rewrite ForLoop_app, Hwalk, (skipn_nth_error _ _ _ Hbit). simpl.
  rewrite length_firstn, Nat.min_l
    by (apply Nat.lt_le_incl, nth_error_Some; congruence).
  rewrite Hbody. reflexivity.
Qed.

Lemma iteration_failure_Reconstruct pre post PreBits PreTypes PostBits
  PostTypes i bit w f :
  SplitSeqByGapsAndMissingCov pre = Ok (PreBits, PreTypes) ->
  SplitSeqByGapsAndMissingCov post = Ok (PostBits, PostTypes) ->
  WalkBefore PreTypes PostBits PostTypes PreBits i w ->
  nth_error PreBits i = Some bit ->
  LoopBody PreTypes PostBits PostTypes i bit w = Fail f ->
  Reconstruct pre post = Fail f.
Proof.
  intros Hpre Hpost Hwalk Hbit Hbody. unfold Reconstruct.
  rewrite Hpre, Hpost. simpl.
  rewrite (iteration_failure _ _ _ _ _ _ _ _ Hwalk Hbit Hbody). reflexivity.
Qed.

(** C4, amended: the script has no check of the cursor after the walk; when
    the walk ends without having passed every post-alignment run, the new
    consensus is shorter than the post-alignment consensus, and the script
    stops at the round-trip check of line 232, an InvariantError. *)
Theorem unconsumed_runs_fail_round_trip pre post PreBits PreTypes PostBits
  PostTypes w :
  SplitSeqByGapsAndMissingCov pre = Ok (PreBits, PreTypes) ->
  SplitSeqByGapsAndMissingCov post = Ok (PostBits, PostTypes) ->
  ForLoop PreTypes PostBits PostTypes 0 PreBits (Walk [] 0) = Ok w ->
  ProgThroughPostAln w <> length PostBits ->
  length (NewConsensus w) < length post
  /\ Reconstruct pre post = Fail RoundTripFailed
  /\ kind RoundTripFailed = Some InvariantError.
Proof.
  intros Hpre Hpost Hwalk Hcursor.
  assert (Hlen : length (NewConsensus w) < length post).
  { apply SplitSeq_Ok in Hpost as [_ Hseg].
    destruct (ForLoop_Covered _ _ _ _ _ Hwalk) as [Hle Hlen].
    destruct (nth_error PostBits (ProgThroughPostAln w)) as [bit|] eqn:Hbit.
    - pose proof (Segmentation_nonempty _ _ _ bit Hseg
                    (nth_error_In _ _ Hbit)) as Hne.
      destruct Hseg as [<- _].
      replace (concat PostBits)
        with (concat (firstn (ProgThroughPostAln w) PostBits
                      ++ skipn (ProgThroughPostAln w) PostBits))
        by (rewrite firstn_skipn; reflexivity).
      rewrite (skipn_nth_error _ _ _ Hbit), concat_app, length_app, Hlen.
      simpl. rewrite length_app. destruct bit; [congruence|simpl; lia].
    - apply nth_error_None in Hbit. lia. }
  split; [exact Hlen|]. split; [|reflexivity].
  unfold Reconstruct. rewrite Hpre, Hpost. simpl. rewrite Hwalk. simpl.
  apply SanityChecks_round_trip. intros E.
  rewrite <- E, length_replace in Hlen. lia.
Qed.

Lemma unconsumed_runs_fail_round_trip_witness :
  Reconstruct (str_of "AC??TT") (str_of "AC--TT--") = Fail RoundTripFailed.
Proof.
  apply (unconsumed_runs_fail_round_trip (str_of "AC??TT") (str_of "AC--TT--")
           [str_of "AC"; str_of "??"; str_of "TT"] [2; 0; 2]
           [str_of "AC"; str_of "--"; str_of "TT"; str_of "--"] [2; 1; 2; 1]
           (Walk (str_of "AC??TT") 3));
    try reflexivity.
  discriminate.
Defined.

(** The claim C4 as stated fails: the walk ends with one post-alignment run
    left, and the failure is not a ReconciliationError. *)
Lemma unconsumed_runs_counterexample :
  SplitSeqByGapsAndMissingCov (str_of "A") = Ok ([str_of "A"], [2])
  /\ SplitSeqByGapsAndMissingCov (str_of "A-")
     = Ok ([str_of "A"; str_of "-"], [2; 1])
  /\ ForLoop [2] [str_of "A"; str_of "-"] [2; 1] 0 [str_of "A"] (Walk [] 0)
     = Ok (Walk (str_of "A") 1)
  /\ 1 <> length [str_of "A"; str_of "-"]
  /\ Reconstruct (str_of "A") (str_of "A-") = Fail RoundTripFailed
  /\ kind RoundTripFailed <> Some ReconciliationError.
Proof. repeat split; discriminate. Qed.

(** C6, where the code departs from the claim: on the empty sequence the loop
    of the segmenter never binds the two lists it returns, so the [return]
    of line 174 raises UnboundLocalError; on every other sequence the
    segmenter returns runs whose concatenation is the sequence, each run of
    one class, no two adjacent runs of the same class. *)
Theorem segmenter_empty_sequence :
  SplitSeqByGapsAndMissingCov [] = Fail (UnboundLocalError 174)
  /\ forall seq,
      seq <> [] ->
      exists Bits Types,
        SplitSeqByGapsAndMissingCov seq = Ok (Bits, Types)
        /\ concat Bits = seq
        /\ Forall2 run_of Bits Types
        /\ adjacent_distinct Types.
Proof.
  split; [reflexivity|]. intros seq Hne.
  destruct (SplitSeq_nonempty seq Hne) as (Bits & Types & H & Hseg).
  exists Bits, Types. split; [exact H|exact Hseg].
Qed.

(** ** The script as a whole *)

Lemma FindConsensus_found AlignedSeqs :
  forall i ConsensusID ConsensusPosition n,
    FindConsensus i AlignedSeqs ConsensusID ConsensusPosition = Some n ->
    ConsensusPosition = Some n
    \/ (i <= n
        /\ exists record,
            nth_error AlignedSeqs (n - i) = Some record
            /\ id record = ConsensusID).
Proof.
  induction AlignedSeqs as [|record rest IH]; intros i cid pos n H;
    simpl in H; [left; exact H|].
  apply IH in H as [H|(Hle & r & Hr & Hid)].
  - destruct (String.eqb_spec (id record) cid) as [E|_]; [|left; exact H].
    injection H as <-. right. split; [lia|]. exists record.
    rewrite Nat.sub_diag. auto.
  - right. split; [lia|]. exists r. split; [|exact Hid].
    replace (n - i) with (S (n - S i)) by lia. exact Hr.
Qed.

Lemma Finish_Ok p AlignedSeqs out :
  Finish p AlignedSeqs = Ok out ->
  exists position PostAlignmentConsensus NewConsensus,
    nth_error AlignedSeqs position = Some PostAlignmentConsensus
    /\ id PostAlignmentConsensus = id (consensus p)
    /\ Reconstruct (ConsensusAsString p) (seq PostAlignmentConsensus)
       = Ok NewConsensus
    /\ out = set_item AlignedSeqs position
               (Seq (id PostAlignmentConsensus) NewConsensus).
Proof.
  unfold Finish, item. intros H.
  destruct (list_eq_dec _ _ _); [|discriminate].
  destruct (FindConsensus _ _ _ _) as [position|] eqn:F; [|discriminate].
  simpl in H.
  destruct (nth_error AlignedSeqs position) as [Post|] eqn:N; [|discriminate].
  simpl in H. destruct (str_eq_dec _ _); [|discriminate].
  destruct (Reconstruct _ _) as [NewConsensus|] eqn:R; [|discriminate].
  injection H as <-. exists position, Post, NewConsensus.
  repeat split; try assumption.
  apply FindConsensus_found in F as [F|(_ & r & Hr & Hid)]; [discriminate|].
  rewrite Nat.sub_0_r in Hr. congruence.
Qed.

Lemma main_Ok Propagate mafft args calls out :
  main Propagate mafft args = (calls, Ok out) ->
  exists p AlignedSeqs,
    Prepare Propagate args = Ok p
    /\ calls = [MafftInput args p]
    /\ mafft (MafftInput args p) = Some AlignedSeqs
    /\ Finish p AlignedSeqs = Ok out.
Proof.
  unfold main. intros H.
  destruct (Prepare Propagate args) as [p|]; [|discriminate].
  destruct (mafft (MafftInput args p)) as [AlignedSeqs|] eqn:M;
    [|discriminate].
  injection H as <- H. exists p, AlignedSeqs. auto.
Qed.

(** C1: whenever the script prints its sequences, the record of the
    consensus among the aligned sequences has been given a new sequence that,
    with every "?" replaced by "-", is the post-alignment consensus; a new
    consensus for which this fails stops the script at line 232. *)
Theorem round_trip Propagate mafft args calls out :
  main Propagate mafft args = (calls, Ok out) ->
  exists p AlignedSeqs position PostAlignmentConsensus NewConsensus,
    Prepare Propagate args = Ok p
    /\ mafft (MafftInput args p) = Some AlignedSeqs
    /\ nth_error AlignedSeqs position = Some PostAlignmentConsensus
    /\ id PostAlignmentConsensus = id (consensus p)
    /\ out = set_item AlignedSeqs position
               (Seq (id PostAlignmentConsensus) NewConsensus)
    /\ replace "?" "-" NewConsensus = seq PostAlignmentConsensus
    /\ forall other,
        replace "?" "-" other <> seq PostAlignmentConsensus ->
        SanityChecks other (seq PostAlignmentConsensus) = Fail RoundTripFailed.
Proof.
  intros H.
  apply main_Ok in H as (p & AlignedSeqs & Hp & _ & Hm & H).
  apply Finish_Ok in H as (position & Post & NC & Hn & Hid & HR & ->).
  apply Reconstruct_Ok in HR as (? & ? & ? & ? & w & _ & _ & _ & HS).
  apply SanityChecks_Ok in HS as (-> & E & _).
  exists p, AlignedSeqs, position, Post, (NewConsensus w).
  do 6 (split; [first [assumption|reflexivity]|]).
  intros other. apply SanityChecks_round_trip.
Qed.

(** C5: whenever the script prints its sequences, the new consensus has no
    "?" next to a "-", in either order; a new consensus that has one stops
    the script at the sanity checks. *)
Theorem no_gap_next_to_missing Propagate mafft args calls out :
  main Propagate mafft args = (calls, Ok out) ->
  exists p AlignedSeqs position PostAlignmentConsensus NewConsensus,
    Prepare Propagate args = Ok p
    /\ mafft (MafftInput args p) = Some AlignedSeqs
    /\ nth_error AlignedSeqs position = Some PostAlignmentConsensus
    /\ id PostAlignmentConsensus = id (consensus p)
    /\ out = set_item AlignedSeqs position
               (Seq (id PostAlignmentConsensus) NewConsensus)
    /\ ~ adjacent "?" "-" NewConsensus
    /\ ~ adjacent "-" "?" NewConsensus
    /\ forall other,
        adjacent "?" "-" other \/ adjacent "-" "?" other ->
        exists f,
          SanityChecks other (seq PostAlignmentConsensus) = Fail f
          /\ kind f = Some InvariantError.
Proof.
  intros H.
  apply main_Ok in H as (p & AlignedSeqs & Hp & _ & Hm & H).
  apply Finish_Ok in H as (position & Post & NC & Hn & Hid & HR & ->).
  apply Reconstruct_Ok in HR as (? & ? & ? & ? & w & _ & _ & _ & HS).
  apply SanityChecks_Ok in HS as (-> & _ & A1 & A2).
  exists p, AlignedSeqs, position, Post, (NewConsensus w).
  do 7 (split; [first [assumption|reflexivity]|]).
  intros other. apply SanityChecks_adjacent.
Qed.

Lemma example_run :
  main PropagateNoCoverageCharSpec example_mafft example_args
  = (example_calls, Ok example_out).
Proof. reflexivity. Qed.

Lemma round_trip_witness :
  exists p AlignedSeqs position PostAlignmentConsensus NewConsensus,
    Prepare PropagateNoCoverageCharSpec example_args = Ok p
    /\ example_mafft (MafftInput example_args p) = Some AlignedSeqs
    /\ nth_error AlignedSeqs position = Some PostAlignmentConsensus
    /\ id PostAlignmentConsensus = id (consensus p)
    /\ example_out = set_item AlignedSeqs position
                       (Seq (id PostAlignmentConsensus) NewConsensus)
    /\ replace "?" "-" NewConsensus = seq PostAlignmentConsensus
    /\ forall other,
        replace "?" "-" other <> seq PostAlignmentConsensus ->
        SanityChecks other (seq PostAlignmentConsensus) = Fail RoundTripFailed.
Proof.
  exact (round_trip PropagateNoCoverageCharSpec example_mafft example_args
           example_calls example_out eq_refl).
Defined.

Lemma no_gap_next_to_missing_witness :
  exists p AlignedSeqs position PostAlignmentConsensus NewConsensus,
    Prepare PropagateNoCoverageCharSpec example_args = Ok p
    /\ example_mafft (MafftInput example_args p) = Some AlignedSeqs
    /\ nth_error AlignedSeqs position = Some PostAlignmentConsensus
    /\ id PostAlignmentConsensus = id (consensus p)
    /\ example_out = set_item AlignedSeqs position
                       (Seq (id PostAlignmentConsensus) NewConsensus)
    /\ ~ adjacent "?" "-" NewConsensus
    /\ ~ adjacent "-" "?" NewConsensus
    /\ forall other,
        adjacent "?" "-" other \/ adjacent "-" "?" other ->
        exists f,
          SanityChecks other (seq PostAlignmentConsensus) = Fail f
          /\ kind f = Some InvariantError.
Proof.
  exact (no_gap_next_to_missing PropagateNoCoverageCharSpec example_mafft
           example_args example_calls example_out eq_refl).
Defined.

(** ** The checks on the input pair *)

Lemma column_cons a b c cs r rs :
  column a b (c :: cs) (r :: rs) <-> (c = a /\ r = b) \/ column a b cs rs.
Proof.
  split.
  - intros [[|i] [Hc Hr]]; simpl in *.
    + left. split; congruence.
    + right. exists i. auto.
  - intros [[-> ->]|[i [Hc Hr]]].
    + exists 0. auto.
    + exists (S i). auto.
Qed.

Lemma column_nil_l a b rs : ~ column a b [] rs.
Proof. intros [[|i] [H _]]; discriminate. Qed.

Lemma column_nil_r a b cs : ~ column a b cs [].
Proof. intros [[|i] [_ H]]; discriminate. Qed.

Lemma CheckColumns_Ok cs :
  forall rs,
    CheckColumns cs rs = Ok tt
    <-> ~ column "-" "-" cs rs /\ ~ column "?" "-" cs rs.
Proof.
  induction cs as [|c cs IH]; intros rs.
  - simpl. split; [|reflexivity]. intros _. split; apply column_nil_l.
  - destruct rs as [|r rs].
    + simpl. split; [|reflexivity]. intros _. split; apply column_nil_r.
    + simpl. rewrite !column_cons.
      destruct (Ascii.eqb_spec r "-") as [->|Nr].
      * destruct (Ascii.eqb_spec c "-") as [->|Nc].
        { split; [discriminate|]. intros [H _]. exfalso. apply H. auto. }
        destruct (Ascii.eqb_spec c "?") as [->|Nc'].
        { split; [discriminate|]. intros [_ H]. exfalso. apply H. auto. }
        rewrite IH. split; intros [H1 H2].
        { split; intros [[E _]|H]; auto. }
        { split; intros H; [apply H1|apply H2]; auto. }
      * rewrite IH. split; intros [H1 H2].
        { split; intros [[_ E]|H]; auto. }
        { split; intros H; [apply H1|apply H2]; auto. }
Qed.

Lemma CheckColumns_Fail cs :
  forall rs f,
    CheckColumns cs rs = Fail f -> f = BothGap \/ f = MissingCovVsGap.
Proof.
  induction cs as [|c cs IH]; intros [|r rs] f H; simpl in H;
    try discriminate.
  destruct (Ascii.eqb r "-"); [|exact (IH _ _ H)].
  destruct (Ascii.eqb c "-"); [injection H as <-; auto|].
  destruct (Ascii.eqb c "?"); [injection H as <-; auto|exact (IH _ _ H)].
Qed.

Lemma CheckPair_Ok cs rs :
  CheckPair cs rs = Ok tt
  <-> length cs = length rs
      /\ ~ column "-" "-" cs rs /\ ~ column "?" "-" cs rs.
Proof.
  unfold CheckPair. destruct (Nat.eqb_spec (length cs) (length rs)) as [E|N].
  - rewrite CheckColumns_Ok. tauto.
  - split; [discriminate|tauto].
Qed.

Lemma CheckPair_Fail cs rs f :
  CheckPair cs rs = Fail f -> kind f = Some FormatError.
Proof.
  unfold CheckPair. destruct (length cs =? length rs).
  - intros H. apply CheckColumns_Fail in H as [-> | ->]; reflexivity.
  - intros H. injection H as <-. reflexivity.
Qed.

(** ** Failures after the checks on the input pair *)

Lemma last_item_Fail {A : Type} (l : list A) line f :
  last_item l line = Fail f -> kind f = None.
Proof.
  induction l as [|x l IH]; simpl; intros H.
  - injection H as <-. reflexivity.
  - destruct l; [discriminate|exact (IH H)].
Qed.

Lemma set_last_Fail {A : Type} (g : A -> A) (l : list A) line f :
  set_last g l line = Fail f -> kind f = None.
Proof.
  induction l as [|x l IH]; simpl; intros H.
  - injection H as <-. reflexivity.
  - destruct l; [discriminate|].
    destruct (set_last g (a :: l) line); [discriminate|].
    injection H as <-. apply IH. reflexivity.
Qed.

Lemma SplitLoop_Fail seq :
  forall i locals f, SplitLoop i seq locals = Fail f -> kind f = None.
Proof.
  induction seq as [|base seq IH]; intros i locals f H; simpl in H;
    [discriminate|].
  destruct (SplitBody i base locals) as [locals'|f'] eqn:B; simpl in H.
  - exact (IH _ _ _ H).
  - injection H as <-. unfold SplitBody in B.
    destruct (i =? 0); [discriminate|].
    destruct locals as [[Bits Types]|]; [|injection B as <-; reflexivity].
    destruct (last_item Types 169) as [t|f0] eqn:L; simpl in B.
    + destruct (CharToInt base =? t); [|discriminate].
      destruct (set_last _ Bits 170) as [|f1] eqn:S; [discriminate|].
      injection B as <-. exact (set_last_Fail _ _ _ _ S).
    + injection B as <-. exact (last_item_Fail _ _ _ L).
Qed.

Lemma SplitSeq_Fail seq f :
  SplitSeqByGapsAndMissingCov seq = Fail f -> kind f = None.
Proof.
  unfold SplitSeqByGapsAndMissingCov. intros H.
  destruct (SplitLoop 0 seq None) as [[lists|]|f'] eqn:L; simpl in H.
  - discriminate.
  - injection H as <-. reflexivity.
  - injection H as <-. exact (SplitLoop_Fail _ _ _ _ L).
Qed.

Lemma LoopBody_Fail PreTypes PostBits PostTypes i bit w f :
  LoopBody PreTypes PostBits PostTypes i bit w = Fail f ->
  kind f = None \/ kind f = Some ReconciliationError.
Proof.
  unfold LoopBody, item. intros H.
  destruct (nth_error PreTypes i) as [type|];
    [|simpl in H; injection H as <-; auto].
  destruct (nth_error PostBits _) as [PostBit|];
    [|simpl in H; injection H as <-; auto].
  destruct (nth_error PostTypes _) as [ptype|];
    [|simpl in H; injection H as <-; auto].
  simpl in H. destruct ((type =? 0) || (type =? 1)).
  - destruct (negb (ptype =? 1)); [injection H as <-; auto|].
    destruct bit; simpl in H; [injection H as <-; auto|discriminate].
  - destruct (negb (ptype =? 2)); [injection H as <-; auto|].
    destruct (length PostBit =? length bit); [discriminate|].
    unfold WhileLoop in H.
    destruct (WhileFrom _ _ _ _) as [[NewForm cursor]|f'] eqn:W; simpl in H.
    + destruct (str_eq_dec _ _); [discriminate|injection H as <-; auto].
    + injection H as <-. apply WhileFrom_Fail in W as [-> _]. auto.
Qed.

Lemma ForLoop_Fail PreTypes PostBits PostTypes PreBits :
  forall i w f,
    ForLoop PreTypes PostBits PostTypes i PreBits w = Fail f ->
    kind f = None \/ kind f = Some ReconciliationError.
Proof.
  induction PreBits as [|bit PreBits IH]; intros i w f H; simpl in H;
    [discriminate|].
  destruct (LoopBody _ _ _ i bit w) as [w'|f'] eqn:B; simpl in H.
  - exact (IH _ _ _ H).
  - injection H as <-. exact (LoopBody_Fail _ _ _ _ _ _ _ B).
Qed.

Lemma Reconstruct_Fail pre post f :
  Reconstruct pre post = Fail f ->
  kind f = None \/ kind f = Some ReconciliationError
  \/ kind f = Some InvariantError.
Proof.
  unfold Reconstruct. intros H.
  destruct (SplitSeqByGapsAndMissingCov pre) as [[PreBits PreTypes]|f1] eqn:S1;
    [|injection H as <-; left; exact (SplitSeq_Fail _ _ S1)].
  destruct (SplitSeqByGapsAndMissingCov post) as [[PostBits PostTypes]|f2]
    eqn:S2; [|injection H as <-; left; exact (SplitSeq_Fail _ _ S2)].
  simpl in H.
  destruct (ForLoop _ _ _ _ _ _) as [w|f3] eqn:W; simpl in H.
  - unfold SanityChecks in H.
    destruct (str_eq_dec _ _); [|injection H as <-; auto].
    destruct (_ || _); [injection H as <-; auto|discriminate].
  - injection H as <-. destruct (ForLoop_Fail _ _ _ _ _ _ _ W); auto.
Qed.

Lemma Finish_Fail p AlignedSeqs f :
  Finish p AlignedSeqs = Fail f -> kind f <> Some FormatError.
Proof.
  unfold Finish, item. intros H.
  destruct (list_eq_dec _ _ _); [|injection H as <-; discriminate].
  destruct (FindConsensus _ _ _ _) as [position|];
    [|injection H as <-; discriminate].
  simpl in H.
  destruct (nth_error AlignedSeqs position) as [Post|];
    [|injection H as <-; discriminate].
  simpl in H. destruct (str_eq_dec _ _); [|injection H as <-; discriminate].
  destruct (Reconstruct _ _) as [NewConsensus|f'] eqn:R; [discriminate|].
  injection H as <-.
  destruct (Reconstruct_Fail _ _ _ R) as [E|[E|E]]; rewrite E; discriminate.
Qed.

(** C7: for the two records of the input pair, the script stops with a
    FormatError, without having run mafft, exactly when the two sequences
    differ in length, or some column has "-" in both, or some column has "?"
    in the consensus and "-" in the reference; otherwise the checks of lines
    76-91 pass and leave nothing behind. *)
Theorem input_validation Propagate mafft args consensus ref :
  SeqPairWithMissingCov args = [consensus; ref] ->
  let offending :=
    length (seq consensus) <> length (seq ref)
    \/ column "-" "-" (seq consensus) (seq ref)
    \/ column "?" "-" (seq consensus) (seq ref) in
  (offending ->
   exists f,
     kind f = Some FormatError
     /\ CheckPair (seq consensus) (seq ref) = Fail f
     /\ main Propagate mafft args = ([], Fail f))
  /\ (~ offending ->
      CheckPair (seq consensus) (seq ref) = Ok tt
      /\ forall calls f,
          main Propagate mafft args = (calls, Fail f) ->
          kind f <> Some FormatError).
Proof.
  intros Hpair offending. split.
  - intros Hoff.
    destruct (CheckPair (seq consensus) (seq ref)) as [[]|f] eqn:C.
    + apply CheckPair_Ok in C. unfold offending in Hoff. tauto.
    + exists f. split; [exact (CheckPair_Fail _ _ _ C)|]. split; [reflexivity|].
      unfold main, Prepare. rewrite Hpair. simpl. rewrite C. reflexivity.
  - intros Hoff.
    assert (C : CheckPair (seq consensus) (seq ref) = Ok tt).
    { apply CheckPair_Ok. unfold offending in Hoff.
      destruct (Nat.eq_dec (length (seq consensus)) (length (seq ref)));
        tauto. }
    split; [exact C|]. intros calls f. unfold main, Prepare.
    rewrite Hpair. simpl. rewrite C. simpl.
    destruct (_ <? _).
    + intros H. injection H as _ <-. discriminate.
    + destruct (mafft _) as [AlignedSeqs|].
      * intros H. injection H as _ H. exact (Finish_Fail _ _ _ H).
      * intros H. injection H as _ <-. discriminate.
Qed.

Lemma input_validation_witness :
  (exists f,
      kind f = Some FormatError
      /\ CheckPair (str_of "AC-T") (str_of "AG-T") = Fail f
      /\ main PropagateNoCoverageCharSpec example_mafft
           (Args [] [Seq "consensus" (str_of "AC-T"); Seq "ref" (str_of "AG-T")]
                 false false)
         = ([], Fail f))
  /\ CheckPair (str_of "AC??TTGT") (str_of "ACGGTTGT") = Ok tt.
Proof.
  split.
  - apply (input_validation PropagateNoCoverageCharSpec example_mafft
             (Args [] [Seq "consensus" (str_of "AC-T");
                       Seq "ref" (str_of "AG-T")] false false)
             (Seq "consensus" (str_of "AC-T")) (Seq "ref" (str_of "AG-T"))
             eq_refl).
    right. left. exists 2. split; reflexivity.
  - apply (input_validation PropagateNoCoverageCharSpec example_mafft
             example_args (Seq "consensus" (str_of "AC??TTGT"))
             (Seq "ref" (str_of "ACGGTTGT")) eq_refl).
    pose proof (proj1 (CheckPair_Ok (str_of "AC??TTGT") (str_of "ACGGTTGT"))
                  eq_refl) as (_ & H1 & H2).
    intros [H|[H|H]]; [apply H; reflexivity|exact (H1 H)|exact (H2 H)].
Defined.

(** ** Sorted identifiers *)

Lemma leb_le a b :
  String.leb a b = true <-> a = b \/ String_as_OT.lt a b.
Proof.
  unfold String.leb. destruct (String.compare a b) eqn:E.
  - split; [|reflexivity]. intros _. left.
    apply String.compare_eq_iff. exact E.
  - split; [|reflexivity]. intros _. right.
    apply String_as_OT.cmp_lt. exact E.
  - split; [discriminate|]. intros [->|H].
    + pose proof (proj2 (String_as_OT.cmp_eq b b) eq_refl) as R.
      unfold String_as_OT.cmp in R. congruence.
    + apply String_as_OT.cmp_lt in H. unfold String_as_OT.cmp in H.
      congruence.
Qed.

Lemma leb_trans a b c :
  String.leb a b = true -> String.leb b c = true -> String.leb a c = true.
Proof.
  rewrite !leb_le. intros [->|Hab] [->|Hbc]; auto.
  right. exact (String_as_OT.lt_trans _ _ _ Hab Hbc).
Qed.

Lemma insert_sorted_Permutation x l : Permutation (insert_sorted x l) (x :: l).
Proof.
  induction l as [|y l IH]; simpl; [reflexivity|].
  destruct (String.leb x y); [reflexivity|].
  rewrite IH. apply perm_swap.
Qed.

Lemma sorted_Permutation l : Permutation (sorted l) l.
Proof.
  induction l as [|x l IH]; simpl; [reflexivity|].
  rewrite insert_sorted_Permutation. apply perm_skip. exact IH.
Qed.

Lemma insert_sorted_Forall (P : string -> Prop) x l :
  P x -> Forall P l -> Forall P (insert_sorted x l).
Proof.
  intros Hx H. induction H as [|y l Hy Hl IH]; simpl.
  - repeat constructor. exact Hx.
  - destruct (String.leb x y); repeat (constructor; try assumption).
Qed.

Lemma insert_sorted_StronglySorted x l :
  Sorted.StronglySorted (fun a b => String.leb a b = true) l ->
  Sorted.StronglySorted (fun a b => String.leb a b = true)
    (insert_sorted x l).
Proof.
  intros H. induction H as [|y l Hl IH Hy]; simpl.
  - repeat constructor.
  - destruct (String.leb x y) eqn:E.
    + constructor; [constructor; assumption|].
      constructor; [exact E|].
      eapply Forall_impl; [|exact Hy]. intros z Hz.
      exact (leb_trans _ _ _ E Hz).
    + constructor; [exact IH|].
      apply insert_sorted_Forall; [|exact Hy].
      destruct (String.leb_total x y) as [T|T]; congruence.
Qed.

Lemma sorted_StronglySorted l :
  Sorted.StronglySorted (fun a b => String.leb a b = true) (sorted l).
Proof.
  induction l as [|x l IH]; simpl; [constructor|].
  apply insert_sorted_StronglySorted. exact IH.
Qed.

Lemma StronglySorted_unique l1 :
  forall l2,
    Sorted.StronglySorted (fun a b => String.leb a b = true) l1 ->
    Sorted.StronglySorted (fun a b => String.leb a b = true) l2 ->
    Permutation l1 l2 -> l1 = l2.
Proof.
  induction l1 as [|a l1 IH]; intros l2 S1 S2 P.
  - apply Permutation_nil in P. congruence.
  - destruct l2 as [|b l2];
      [apply Permutation_sym, Permutation_nil in P; discriminate|].
    apply Sorted.StronglySorted_inv in S1 as [S1 F1].
    apply Sorted.StronglySorted_inv in S2 as [S2 F2].
    assert (E : a = b).
    { assert (Ha : In a (b :: l2))
        by (eapply Permutation_in; [exact P|left; reflexivity]).
      assert (Hb : In b (a :: l1))
        by (eapply Permutation_in;
            [apply Permutation_sym; exact P|left; reflexivity]).
      destruct Ha as [Ha|Ha]; [congruence|].
      destruct Hb as [Hb|Hb]; [congruence|].
      rewrite Forall_forall in F1, F2.
      apply String.leb_antisym; auto. }
    subst b. f_equal. apply IH; try assumption.
    exact (Permutation_cons_inv P).
Qed.

Lemma sorted_eq_Permutation l1 l2 :
  sorted l1 = sorted l2 <-> Permutation l1 l2.
Proof.
  split; intros H.
  - rewrite <- (sorted_Permutation l1), H. apply sorted_Permutation.
  - apply StronglySorted_unique; try apply sorted_StronglySorted.
    rewrite !sorted_Permutation. exact H.
Qed.

(** ** The checks on the aligned sequences *)

Lemma nodup_length_le (l : list string) :
  length (nodup string_dec l) <= length l.
Proof.
  induction l as [|x l IH]; simpl; [lia|].
  destruct (in_dec string_dec x l); simpl; lia.
Qed.

Lemma nodup_length_NoDup (l : list string) :
  (length (nodup string_dec l) <? length l) = false -> NoDup l.
Proof.
  rewrite Nat.ltb_ge. induction l as [|x l IH]; simpl; intros H.
  - constructor.
  - pose proof (nodup_length_le l).
    destruct (in_dec string_dec x l); simpl in H; [lia|].
    constructor; [assumption|]. apply IH. lia.
Qed.

Lemma Prepare_Ok Propagate args p :
  Prepare Propagate args = Ok p ->
  SeqPairWithMissingCov args = [consensus p; ref p]
  /\ CheckPair (seq (consensus p)) (seq (ref p)) = Ok tt
  /\ ConsensusAsString p = Propagate (seq (consensus p))
  /\ AllIDs p
     = id (consensus p) :: id (ref p) :: map id (OtherSeqsToBeAdded args)
  /\ NoDup (AllIDs p).
Proof.
  unfold Prepare. intros H.
  destruct (SeqPairWithMissingCov args) as [|c [|r [|x l]]];
    cbn [FindPair bind] in H; try discriminate.
  destruct (CheckPair (seq c) (seq r)) as [[]|] eqn:C; cbn [bind] in H;
    [|discriminate].
  destruct (_ <? _) eqn:L; [discriminate|].
  injection H as <-. cbn [consensus ref ConsensusAsString AllIDs].
  repeat split; [exact C|]. apply nodup_length_NoDup. exact L.
Qed.

Lemma FindConsensus_bound AlignedSeqs :
  forall i ConsensusID m,
    exists n, FindConsensus i AlignedSeqs ConsensusID (Some m) = Some n.
Proof.
  induction AlignedSeqs as [|record rest IH]; intros i cid m; simpl.
  - exists m. reflexivity.
  - destruct (String.eqb (id record) cid); apply IH.
Qed.

Lemma FindConsensus_In AlignedSeqs :
  forall i ConsensusID ConsensusPosition,
    In ConsensusID (map id AlignedSeqs) ->
    exists n record,
      FindConsensus i AlignedSeqs ConsensusID ConsensusPosition = Some n
      /\ i <= n
      /\ nth_error AlignedSeqs (n - i) = Some record
      /\ id record = ConsensusID.
Proof.
  induction AlignedSeqs as [|record rest IH]; intros i cid pos Hin;
    [destruct Hin|].
  simpl. destruct (String.eqb_spec (id record) cid) as [E|N].
  - destruct (FindConsensus_bound rest (S i) cid i) as [n F].
    exists n. rewrite F.
    apply FindConsensus_found in F as [F|(Hle & r & Hr & Hid)].
    + injection F as <-. exists record. rewrite Nat.sub_diag. auto.
    + exists r. split; [reflexivity|]. split; [lia|]. split; [|exact Hid].
      replace (n - i) with (S (n - S i)) by lia. exact Hr.
  - destruct Hin as [Hin|Hin]; [contradiction|].
    destruct (IH (S i) cid pos Hin) as (n & r & F & Hle & Hr & Hid).
    exists n, r. split; [exact F|]. split; [lia|]. split; [|exact Hid].
    replace (n - i) with (S (n - S i)) by lia. exact Hr.
Qed.

(** C8: once mafft has returned, and before anything of the reconciliation
    is run, the script stops with a ConsistencyError when the identifiers of
    the aligned sequences are not those of the consensus, the reference and
    the other sequences, each once, or when the post-alignment consensus
    without its gaps differs from the pre-alignment consensus, "?" replaced
    by "-", without its gaps; the reconciliation is what remains to be run
    only when both checks pass. *)
Theorem post_alignment_gate Propagate mafft args p AlignedSeqs :
  Prepare Propagate args = Ok p ->
  mafft (MafftInput args p) = Some AlignedSeqs ->
  kind DifferentSeqs = Some ConsistencyError
  /\ kind DifferentBases = Some ConsistencyError
  /\ AllIDs p
     = id (consensus p) :: id (ref p) :: map id (OtherSeqsToBeAdded args)
  /\ NoDup (AllIDs p)
  /\ (~ Permutation (map id AlignedSeqs) (AllIDs p) ->
      main Propagate mafft args = ([MafftInput args p], Fail DifferentSeqs))
  /\ (Permutation (map id AlignedSeqs) (AllIDs p) ->
      exists position PostAlignmentConsensus,
        nth_error AlignedSeqs position = Some PostAlignmentConsensus
        /\ id PostAlignmentConsensus = id (consensus p)
        /\ (delete "-" (seq PostAlignmentConsensus)
            <> delete "-" (replace "?" "-" (ConsensusAsString p)) ->
            main Propagate mafft args
            = ([MafftInput args p], Fail DifferentBases))
        /\ (delete "-" (seq PostAlignmentConsensus)
            = delete "-" (replace "?" "-" (ConsensusAsString p)) ->
            main Propagate mafft args
            = ([MafftInput args p],
               NewConsensus <-
                 Reconstruct (ConsensusAsString p)
                   (seq PostAlignmentConsensus) ;;
               Ok (set_item AlignedSeqs position
                     (Seq (id PostAlignmentConsensus) NewConsensus))))).
Proof.
  intros Hp Hm.
  destruct (Prepare_Ok _ _ _ Hp) as (_ & _ & _ & Hids & Hnodup).
  do 4 (split; [first [reflexivity|assumption]|]).
  unfold main. rewrite Hp, Hm. unfold Finish. split.
  - intros N. destruct (list_eq_dec _ _ _) as [E|_]; [|reflexivity].
    apply sorted_eq_Permutation in E. contradiction.
  - intros P. destruct (list_eq_dec _ _ _) as [_|N];
      [|apply sorted_eq_Permutation in P; contradiction].
    assert (Hin : In (id (consensus p)) (map id AlignedSeqs)).
    { eapply Permutation_in; [apply Permutation_sym; exact P|].
      rewrite Hids. left. reflexivity. }
    destruct (FindConsensus_In AlignedSeqs 0 _ None Hin)
      as (n & record & -> & _ & Hn & Hid).
    rewrite Nat.sub_0_r in Hn. exists n, record.
    unfold item, ConsensusNoMissingCovStr. cbn [bind]. rewrite Hn. cbn [bind].
    do 2 (split; [first [assumption|reflexivity]|]). split.
    + intros D. destruct (str_eq_dec _ _); [contradiction|reflexivity].
    + intros D. destruct (str_eq_dec _ _); [reflexivity|contradiction].
Qed.

Lemma post_alignment_gate_witness :
  AllIDs example_prepared = ["consensus"; "ref"; "other"]%string
  /\ NoDup (AllIDs example_prepared)
  /\ main PropagateNoCoverageCharSpec example_mafft example_args
     = (example_calls, Ok example_out).
Proof.
  destruct (post_alignment_gate PropagateNoCoverageCharSpec example_mafft
              example_args example_prepared
              [Seq "consensus" (str_of "AC--TT-GT");
               Seq "ref" (str_of "ACGGTT-GT");
               Seq "other" (str_of "ACGGTTAGT")] eq_refl eq_refl)
    as (_ & _ & Hids & Hnodup & _ & Hperm).
  split; [exact Hids|]. split; [exact Hnodup|].
  destruct (Hperm (Permutation_refl _)) as (position & Post & Hn & Hid & _ & H).
  destruct position as [|[|[|position]]]; simpl in Hn.
  - injection Hn as <-. exact (H eq_refl).
  - injection Hn as <-. discriminate Hid.
  - injection Hn as <-. discriminate Hid.
  - destruct position; discriminate Hn.
Defined.

(** ** Further properties: the segmenter *)

Lemma In_delete c d (s : str) : In c (delete d s) <-> In c s /\ c <> d.
Proof.
  unfold delete. rewrite filter_In. split; intros [H1 H2]; split; auto.
  - intros ->. rewrite Ascii.eqb_refl in H2. discriminate.
  - destruct (Ascii.eqb_spec c d); [contradiction|reflexivity].
Qed.

Lemma replace_not_In o n (s : str) : o <> n -> ~ In o (replace o n s).
Proof.
  intros Hon H. unfold replace in H. apply in_map_iff in H as (c & E & _).
  destruct (Ascii.eqb_spec c o); congruence.
Qed.

Lemma replace_absent o n (s : str) : ~ In o s -> replace o n s = s.
Proof.
  intros H. induction s as [|c s IH]; [reflexivity|]. simpl.
  destruct (Ascii.eqb_spec c o) as [->|_].
  - exfalso. apply H. left. reflexivity.
  - f_equal. apply IH. intros Hin. apply H. right. exact Hin.
Qed.

Lemma conservation_no_missing pre post :
  delete "-" post = delete "-" (replace "?" "-" pre) -> ~ In "?" post.
Proof.
  intros E Hin.
  assert (H : In "?" (delete "-" post))
    by (apply In_delete; split; [exact Hin|discriminate]).
  rewrite E in H. apply In_delete in H as [H _].
  revert H. apply replace_not_In. discriminate.
Qed.

Lemma runs_In_concat Bits Types :
  Forall2 run_of Bits Types ->
  Forall (fun type => exists c, In c (concat Bits) /\ CharToInt c = type)
    Types.
Proof.
  intros H. induction H as [|bit type Bits Types [Hne Hall] _ IH];
    constructor.
  - destruct bit as [|c bit]; [congruence|]. exists c. split.
    + simpl. left. reflexivity.
    + inversion Hall; assumption.
  - eapply Forall_impl; [|exact IH]. intros t (c & Hin & Hc).
    exists c. split; [|exact Hc]. simpl. apply in_or_app. right. exact Hin.
Qed.

(** X1: once the check of line 145 has passed, the post-alignment consensus
    has no "?", and its segmentation has runs of gaps and of bases only. *)
Theorem post_alignment_classes pre post PostBits PostTypes :
  SplitSeqByGapsAndMissingCov post = Ok (PostBits, PostTypes) ->
  delete "-" post = delete "-" (replace "?" "-" pre) ->
  ~ In "?" post
  /\ Forall (fun type => type = 1 \/ type = 2) PostTypes.
Proof.
  intros Hpost E. pose proof (conservation_no_missing _ _ E) as Hno.
  split; [exact Hno|].
  apply SplitSeq_Ok in Hpost as [_ (Hcat & Hruns & _)].
  eapply Forall_impl; [|exact (runs_In_concat _ _ Hruns)].
  intros type (c & Hin & Hc). rewrite Hcat in Hin. subst type.
  unfold CharToInt. destruct (Ascii.eqb_spec c "?") as [->|_];
    [contradiction|].
  destruct (Ascii.eqb c "-"); auto.
Qed.

Lemma post_alignment_classes_witness :
  ~ In "?" (str_of "AC--TT-GT")
  /\ Forall (fun type => type = 1 \/ type = 2) [2; 1; 2; 1; 2].
Proof.
  apply (post_alignment_classes (str_of "AC??TTGT") (str_of "AC--TT-GT")
           [str_of "AC"; str_of "--"; str_of "TT"; str_of "-"; str_of "GT"]);
    reflexivity.
Defined.

Lemma adjacent_distinct_tail t types :
  adjacent_distinct (t :: types) -> adjacent_distinct types.
Proof. intros H i a b Ha Hb. exact (H (S i) a b Ha Hb). Qed.

Lemma adjacent_distinct_head t t' types :
  adjacent_distinct (t :: t' :: types) -> t <> t'.
Proof. intros H. exact (H 0 t t' eq_refl eq_refl). Qed.

Lemma runs_first_char Bits Types c rest :
  Forall2 run_of Bits Types ->
  concat Bits = c :: rest ->
  exists Types', Types = CharToInt c :: Types'.
Proof.
  intros H E. destruct H as [|bit type Bits Types [Hne Hall] _];
    [discriminate|].
  destruct bit as [|d bit]; [congruence|]. simpl in E. injection E as -> _.
  exists Types. f_equal. inversion Hall; subst. reflexivity.
Qed.

Lemma runs_first_equal (bit bit' : str) type (Bits Bits' : list str) Types' :
  Forall (fun c => CharToInt c = type) bit ->
  Forall2 run_of Bits' Types' ->
  adjacent_distinct (type :: Types') ->
  forall l, bit = bit' ++ l -> concat Bits' = l ++ concat Bits -> l = [].
Proof.
  intros Hall Hruns Hadj l Hb Hc. destruct l as [|d l]; [reflexivity|].
  exfalso. simpl in Hc.
  destruct (runs_first_char _ _ _ _ Hruns Hc) as [Types'' ->].
  apply adjacent_distinct_head in Hadj. apply Hadj.
  subst bit. apply Forall_app in Hall as [_ Hall].
  inversion Hall; subst. reflexivity.
Qed.

Lemma runs_unique Bits Types :
  Forall2 run_of Bits Types ->
  forall Bits' Types',
    Forall2 run_of Bits' Types' ->
    adjacent_distinct Types -> adjacent_distinct Types' ->
    concat Bits = concat Bits' ->
    Bits = Bits' /\ Types = Types'.
Proof.
  intros H. induction H as [|bit type Bits Types Hrun Hruns IH];
    intros Bits' Types' H' Hadj Hadj' E.
  - destruct H' as [|bit' type' Bits' Types' [Hne _] _]; [auto|].
    destruct bit'; [congruence|discriminate].
  - destruct H' as [|bit' type' Bits' Types' Hrun' Hruns'].
    + destruct Hrun as [Hne _]. destruct bit; [congruence|discriminate].
    + assert (Ht : type = type').
      { destruct Hrun as [Hne Hall], Hrun' as [Hne' Hall'].
        destruct bit as [|c bit]; [congruence|].
        destruct bit' as [|c' bit']; [congruence|].
        simpl in E. injection E as -> _.
        inversion Hall; inversion Hall'; congruence. }
      subst type'. simpl in E.
      assert (Hb : bit = bit' /\ concat Bits = concat Bits').
      { apply app_eq_app in E as [l [[Hb Hc]|[Hb Hc]]].
        - pose proof (runs_first_equal bit bit' type Bits Bits' Types'
                        (proj2 Hrun) Hruns' Hadj' l Hb Hc) as El.
          subst l. rewrite app_nil_r in Hb. simpl in Hc. auto.
        - pose proof (runs_first_equal bit' bit type Bits' Bits Types
                        (proj2 Hrun') Hruns Hadj l Hb Hc) as El.
          subst l. rewrite app_nil_r in Hb. simpl in Hc. auto. }
      destruct Hb as [-> Hc].
      destruct (IH Bits' Types' Hruns' (adjacent_distinct_tail _ _ Hadj)
                  (adjacent_distinct_tail _ _ Hadj') Hc) as [-> ->].
      auto.
Qed.

Lemma Segmentation_SplitSeq seq Bits Types :
  seq <> [] ->
  Segmentation seq Bits Types ->
  SplitSeqByGapsAndMissingCov seq = Ok (Bits, Types).
Proof.
  intros Hne (Hcat & Hruns & Hadj).
  destruct (SplitSeq_nonempty seq Hne) as (B & T & -> & Hcat' & Hruns' & Hadj').
  destruct (runs_unique B T Hruns' Bits Types Hruns Hadj' Hadj) as [-> ->];
    [congruence|reflexivity].
Qed.

(** X2: the runs the segmenter returns are the only way to cut the sequence
    into runs of one class each with no two adjacent runs of the same class:
    given any such cut, the segmenter returns it. *)
Theorem segmentation_unique seq Bits Types :
  seq <> [] ->
  Segmentation seq Bits Types ->
  SplitSeqByGapsAndMissingCov seq = Ok (Bits, Types).
Proof. exact (Segmentation_SplitSeq seq Bits Types). Qed.

Lemma segmentation_unique_witness :
  SplitSeqByGapsAndMissingCov (str_of "AC??--G")
  = Ok ([str_of "AC"; str_of "??"; str_of "--"; str_of "G"], [2; 0; 1; 2]).
Proof.
  apply segmentation_unique; [discriminate|].
  split; [reflexivity|]. split.
  - repeat constructor; discriminate.
  - intros [|[|[|[|i]]]] a b Ha Hb; simpl in Ha, Hb;
      try discriminate; injection Ha as <-; injection Hb as <-; discriminate.
Defined.

(** ** Further properties: before the alignment *)

Lemma first_offending_nil_l a rs : ~ first_offending a [] rs.
Proof. intros [[|i] [H _]]; discriminate. Qed.

Lemma first_offending_nil_r a cs : ~ first_offending a cs [].
Proof. intros [[|i] [_ [H _]]]; discriminate. Qed.

Lemma first_offending_here a cs rs :
  first_offending a (a :: cs) ("-" :: rs).
Proof.
  exists 0. split; [reflexivity|]. split; [reflexivity|].
  intros j Hj. inversion Hj.
Qed.

Lemma first_offending_skip a c cs r rs :
  (r = "-" -> c <> "-" /\ c <> "?") ->
  first_offending a (c :: cs) (r :: rs) <->
  (c = a /\ r = "-") \/ first_offending a cs rs.
Proof.
  intros Hskip. split.
  - intros [[|i] (Hc & Hr & Hj)]; simpl in Hc, Hr.
    + left. split; congruence.
    + right. exists i. split; [exact Hc|]. split; [exact Hr|].
      intros j Hlt Hrj. apply (Hj (S j)); [lia|exact Hrj].
  - intros [[-> ->]|(i & Hc & Hr & Hj)]; [apply first_offending_here|].
    exists (S i). split; [exact Hc|]. split; [exact Hr|].
    intros [|j] Hlt Hrj; simpl in *.
    + injection Hrj as ->. destruct (Hskip eq_refl) as [A B].
      split; congruence.
    + apply Hj; [lia|exact Hrj].
Qed.

Lemma CheckColumns_first cs :
  forall rs,
    (CheckColumns cs rs = Fail BothGap <-> first_offending "-" cs rs)
    /\ (CheckColumns cs rs = Fail MissingCovVsGap
        <-> first_offending "?" cs rs).
Proof.
  induction cs as [|c cs IH]; intros rs.
  - simpl. split; (split; [discriminate|]); intros H;
      destruct (first_offending_nil_l _ _ H).
  - destruct rs as [|r rs].
    + simpl. split; (split; [discriminate|]); intros H;
        destruct (first_offending_nil_r _ _ H).
    + simpl. destruct (Ascii.eqb_spec r "-") as [->|Nr].
      * destruct (Ascii.eqb_spec c "-") as [->|Nc].
        { split; split; try discriminate.
          - intros _. apply first_offending_here.
          - reflexivity.
          - intros (i & Hc & _ & Hj). destruct i as [|i]; [discriminate|].
            destruct (Hj 0 (Nat.lt_0_succ i) eq_refl) as [H _].
            exfalso. apply H. reflexivity. }
        destruct (Ascii.eqb_spec c "?") as [->|Nc'].
        { split; split; try discriminate.
          - intros (i & Hc & _ & Hj). destruct i as [|i]; [discriminate|].
            destruct (Hj 0 (Nat.lt_0_succ i) eq_refl) as [_ H].
            exfalso. apply H. reflexivity.
          - intros _. apply first_offending_here.
          - reflexivity. }
        rewrite !first_offending_skip by auto.
        destruct (IH rs) as [IH1 IH2]. rewrite IH1, IH2.
        split; split; auto; intros [[E _]|H]; congruence.
      * rewrite !first_offending_skip by (intros; contradiction).
        destruct (IH rs) as [IH1 IH2]. rewrite IH1, IH2.
        split; split; auto; intros [[_ E]|H]; congruence.
Qed.

(** X3: each of the three messages of lines 76-91 says what is wrong: the
    first when and only when the lengths differ, and otherwise the second or
    the third according to the consensus character of the first column that
    has "-" in the reference and "-" or "?" in the consensus. *)
Theorem check_pair_messages cs rs :
  (CheckPair cs rs = Fail LengthsDiffer <-> length cs <> length rs)
  /\ (CheckPair cs rs = Fail BothGap
      <-> length cs = length rs /\ first_offending "-" cs rs)
  /\ (CheckPair cs rs = Fail MissingCovVsGap
      <-> length cs = length rs /\ first_offending "?" cs rs).
Proof.
  unfold CheckPair. destruct (CheckColumns_first cs rs) as [H1 H2].
  destruct (Nat.eqb_spec (length cs) (length rs)) as [E|N].
  - rewrite H1, H2. repeat split; try tauto.
    intros H. apply CheckColumns_Fail in H as [H|H]; discriminate.
  - repeat split; try tauto; try discriminate.
Qed.

Lemma nodup_length_lt (l : list string) :
  (length (nodup string_dec l) <? length l) = true <-> ~ NoDup l.
Proof.
  split.
  - intros H N. rewrite (nodup_fixed_point string_dec N) in H.
    rewrite Nat.ltb_irrefl in H. discriminate.
  - intros N. destruct (length (nodup string_dec l) <? length l) eqn:E;
      [reflexivity|].
    exfalso. apply N. apply nodup_length_NoDup. exact E.
Qed.

(** X4: for a pair that passes the checks of lines 76-91, the script stops
    with the message of line 102, without running mafft, exactly when some
    identifier occurs twice among those of the consensus, the reference and
    the sequences to add; otherwise it runs mafft once. *)
Theorem duplicate_identifiers Propagate mafft args consensus ref :
  SeqPairWithMissingCov args = [consensus; ref] ->
  CheckPair (seq consensus) (seq ref) = Ok tt ->
  let ids := id consensus :: id ref :: map id (OtherSeqsToBeAdded args) in
  (~ NoDup ids <-> main Propagate mafft args = ([], Fail DuplicateID))
  /\ (NoDup ids <-> exists call, fst (main Propagate mafft args) = [call]).
Proof.
  intros Hpair Hcheck ids. unfold main, Prepare.
  rewrite Hpair. cbn [FindPair bind]. rewrite Hcheck. cbn [bind].
  change ([id consensus; id ref] ++ map id (OtherSeqsToBeAdded args))
    with ids.
  destruct (length (nodup string_dec ids) <? length ids) eqn:E.
  - assert (N : ~ NoDup ids) by (apply nodup_length_lt; exact E).
    split; split; try tauto.
    intros [call H]. discriminate.
  - assert (N : NoDup ids) by (apply nodup_length_NoDup; exact E).
    split; split; try tauto; try discriminate.
    intros _. eexists. reflexivity.
Qed.

Lemma duplicate_identifiers_witness :
  main PropagateNoCoverageCharSpec example_mafft
    (Args [Seq "ref" (str_of "ACGT")]
          [Seq "consensus" (str_of "AC?T"); Seq "ref" (str_of "ACGT")]
          false false)
  = ([], Fail DuplicateID).
Proof.
  apply (duplicate_identifiers PropagateNoCoverageCharSpec example_mafft
           (Args [Seq "ref" (str_of "ACGT")]
                 [Seq "consensus" (str_of "AC?T"); Seq "ref" (str_of "ACGT")]
                 false false)
           (Seq "consensus" (str_of "AC?T")) (Seq "ref" (str_of "ACGT"))
           eq_refl eq_refl).
  intros N. inversion N as [|? ? _ N']. inversion N' as [|? ? Hin _].
  apply Hin. left. reflexivity.
Defined.

(** X5: mafft is run at most once, and only on a pair of two records that
    passed the checks of lines 76-91 with identifiers all distinct; it is
    given the sequences to add as they are, the reference as it is, and the
    consensus under its own identifier with no "?" left in it. *)
Theorem aligner_never_sees_missing Propagate mafft args calls r :
  main Propagate mafft args = (calls, r) ->
  length calls <= 1
  /\ forall call,
      In call calls ->
      exists consensus ref,
        SeqPairWithMissingCov args = [consensus; ref]
        /\ CheckPair (seq consensus) (seq ref) = Ok tt
        /\ NoDup (id consensus :: id ref
                  :: map id (OtherSeqsToBeAdded args))
        /\ added call = OtherSeqsToBeAdded args
        /\ AddOption call = addfragments args
        /\ length (temp_file_1 call) = 2
        /\ In ref (temp_file_1 call)
        /\ forall record,
            In record (temp_file_1 call) ->
            record = ref
            \/ (id record = id consensus
                /\ seq record = replace "?" "-" (Propagate (seq consensus))
                /\ ~ In "?" (seq record)).
Proof.
  unfold main. intros H.
  destruct (Prepare Propagate args) as [p|f] eqn:Hp.
  - injection H as <- _. split; [simpl; lia|].
    intros call [<-|[]].
    destruct (Prepare_Ok _ _ _ Hp) as (Hpair & Hcheck & Hcas & Hids & Hnodup).
    exists (consensus p), (ref p). rewrite <- Hids.
    do 5 (split; [first [assumption|reflexivity]|]).
    unfold MafftInput, ConsensusNoMissingCovStr. cbn [temp_file_1].
    rewrite Hcas.
    assert (Hno : ~ In "?" (replace "?" "-" (Propagate (seq (consensus p)))))
      by (apply replace_not_In; discriminate).
    destruct (swap_seqs args); (split; [reflexivity|]);
      (split; [simpl; auto|]);
      intros record [<-|[<-|[]]]; auto.
  - injection H as <- _. split; [simpl; lia|]. intros call [].
Qed.

Lemma aligner_never_sees_missing_witness :
  length example_calls <= 1
  /\ forall call,
      In call example_calls ->
      exists consensus ref,
        SeqPairWithMissingCov example_args = [consensus; ref]
        /\ CheckPair (seq consensus) (seq ref) = Ok tt
        /\ NoDup (id consensus :: id ref
                  :: map id (OtherSeqsToBeAdded example_args))
        /\ added call = OtherSeqsToBeAdded example_args
        /\ AddOption call = addfragments example_args
        /\ length (temp_file_1 call) = 2
        /\ In ref (temp_file_1 call)
        /\ forall record,
            In record (temp_file_1 call) ->
            record = ref
            \/ (id record = id consensus
                /\ seq record
                   = replace "?" "-"
                       (PropagateNoCoverageCharSpec (seq consensus))
                /\ ~ In "?" (seq record)).
Proof.
  exact (aligner_never_sees_missing PropagateNoCoverageCharSpec example_mafft
           example_args example_calls (Ok example_out) eq_refl).
Defined.

(** ** Further properties: what the script prints *)

Lemma set_item_other {A : Type} (l : list A) i x :
  forall j, j <> i -> nth_error (set_item l i x) j = nth_error l j.
Proof.
  revert i. induction l as [|y l IH]; intros i j Hj; [destruct i; reflexivity|].
  destruct i as [|i], j as [|j]; simpl; try reflexivity; try congruence.
  apply IH. congruence.
Qed.

Lemma set_item_map {A B : Type} (f : A -> B) (l : list A) i x y :
  nth_error l i = Some y -> f x = f y ->
  map f (set_item l i x) = map f l.
Proof.
  revert i. induction l as [|z l IH]; intros [|i] H E; simpl in *;
    try discriminate.
  - injection H as ->. rewrite E. reflexivity.
  - f_equal. exact (IH i H E).
Qed.

Lemma Finish_Ok_checks p AlignedSeqs out :
  Finish p AlignedSeqs = Ok out ->
  exists position PostAlignmentConsensus NewConsensus,
    nth_error AlignedSeqs position = Some PostAlignmentConsensus
    /\ id PostAlignmentConsensus = id (consensus p)
    /\ Permutation (map id AlignedSeqs) (AllIDs p)
    /\ delete "-" (seq PostAlignmentConsensus)
       = delete "-" (replace "?" "-" (ConsensusAsString p))
    /\ Reconstruct (ConsensusAsString p) (seq PostAlignmentConsensus)
       = Ok NewConsensus
    /\ out = set_item AlignedSeqs position
               (Seq (id PostAlignmentConsensus) NewConsensus).
Proof.
  unfold Finish, item. intros H.
  destruct (list_eq_dec _ _ _) as [E|]; [|discriminate].
  apply sorted_eq_Permutation in E.
  destruct (FindConsensus _ _ _ _) as [position|] eqn:F; [|discriminate].
  cbn [bind] in H.
  destruct (nth_error AlignedSeqs position) as [Post|] eqn:N; [|discriminate].
  cbn [bind] in H. destruct (str_eq_dec _ _) as [D|]; [|discriminate].
  destruct (Reconstruct _ _) as [NC|] eqn:R; [|discriminate].
  cbn [bind] in H. injection H as <-. exists position, Post, NC.
  split; [exact N|]. split.
  - apply FindConsensus_found in F as [F|(_ & r & Hr & Hid)]; [discriminate|].
    rewrite Nat.sub_0_r in Hr. congruence.
  - auto.
Qed.

(** X6: what the script prints is the aligned sequences as mafft returned
    them, same identifiers in the same order, with only the sequence of the
    consensus record replaced: every record with another identifier is
    printed unchanged. *)
Theorem only_consensus_changes Propagate mafft args calls out :
  main Propagate mafft args = (calls, Ok out) ->
  exists p AlignedSeqs,
    Prepare Propagate args = Ok p
    /\ mafft (MafftInput args p) = Some AlignedSeqs
    /\ map id out = map id AlignedSeqs
    /\ Permutation (map id out) (AllIDs p)
    /\ forall j record,
        nth_error AlignedSeqs j = Some record ->
        id record <> id (consensus p) ->
        nth_error out j = Some record.
Proof.
  intros H. apply main_Ok in H as (p & AlignedSeqs & Hp & _ & Hm & H).
  apply Finish_Ok_checks in H
    as (position & Post & NC & Hn & Hid & Hperm & _ & _ & ->).
  exists p, AlignedSeqs. do 2 (split; [assumption|]).
  assert (Hmap : map id (set_item AlignedSeqs position (Seq (id Post) NC))
                 = map id AlignedSeqs)
    by (apply (set_item_map id _ _ _ Post Hn); reflexivity).
  split; [exact Hmap|]. split; [rewrite Hmap; exact Hperm|].
  intros j record Hj Hne. rewrite set_item_other; [exact Hj|].
  intros ->. congruence.
Qed.

Lemma only_consensus_changes_witness :
  exists p AlignedSeqs,
    Prepare PropagateNoCoverageCharSpec example_args = Ok p
    /\ example_mafft (MafftInput example_args p) = Some AlignedSeqs
    /\ map id example_out = map id AlignedSeqs
    /\ Permutation (map id example_out) (AllIDs p)
    /\ forall j record,
        nth_error AlignedSeqs j = Some record ->
        id record <> id (consensus p) ->
        nth_error example_out j = Some record.
Proof.
  exact (only_consensus_changes PropagateNoCoverageCharSpec example_mafft
           example_args example_calls example_out eq_refl).
Defined.

(** ** Further properties: the walk after the base conservation check *)

Lemma replace_repeat_symbol type n :
  type = 0 \/ type = 1 ->
  replace "?" "-" (repeat (symbol_of type) n) = repeat "-" n.
Proof.
  intros Ht. induction n as [|n IH]; [reflexivity|]. simpl.
  rewrite IH. destruct Ht as [-> | ->]; reflexivity.
Qed.

Lemma In_concat_part (A : Type) (before part after : list (list A)) x :
  In x (concat part) -> In x (concat (before ++ part ++ after)).
Proof.
  intros H. rewrite !concat_app. apply in_or_app. right.
  apply in_or_app. left. exact H.
Qed.

Lemma RoundTrip_step pre post PreBits PreTypes PostBits PostTypes i bit w w' :
  Segmentation pre PreBits PreTypes ->
  Segmentation post PostBits PostTypes ->
  ~ In "?" post ->
  nth_error PreBits i = Some bit ->
  Conserved PreBits PostBits i w ->
  Covered PostBits w ->
  replace "?" "-" (NewConsensus w)
  = concat (firstn (ProgThroughPostAln w) PostBits) ->
  LoopBody PreTypes PostBits PostTypes i bit w = Ok w' ->
  replace "?" "-" (NewConsensus w')
  = concat (firstn (ProgThroughPostAln w') PostBits).
Proof.
  intros Hpre Hpost Hno Hbit Hcons [Hc _] Hrt H.
  apply LoopBody_Ok in H
    as (type & PostBit & ptype & Htype & HPost & Hptype & Hcases).
  pose proof (Segmentation_run _ _ _ _ _ _ Hpre Hbit Htype) as Rpre.
  pose proof (Segmentation_run _ _ _ _ _ _ Hpost HPost Hptype) as Rpost.
  pose proof (skipn_nth_error _ _ _ HPost) as Hskip.
  change (PostBit :: skipn (S (ProgThroughPostAln w)) PostBits)
    with ([PostBit] ++ skipn (S (ProgThroughPostAln w)) PostBits) in Hskip.
  pose proof (proj1 (firstn_skipn_split _ _ _ _ Hskip Hc)) as Hfirst.
  simpl length in Hfirst. rewrite Nat.add_1_r in Hfirst.
  destruct Hcases as [(Ht & -> & symbol & Hsym & ->)
                     |[(T0 & T1 & -> & Hl & ->)
                      |(T0 & T1 & -> & _ & consumed & rest & Hs & Hd & ->)]];
    cbn [NewConsensus ProgThroughPostAln].
  - rewrite Hfirst, concat_app, replace_app, Hrt. f_equal. simpl.
    rewrite app_nil_r.
    assert (symbol = symbol_of type) as ->.
    { destruct Rpre as [_ Hall]. destruct bit as [|c bit]; [discriminate|].
      injection Hsym as <-. inversion Hall; subst.
      apply CharToInt_symbol; auto. }
    rewrite (replace_repeat_symbol _ _ Ht).
    symmetry. apply (run_not_base_repeat PostBit 1); auto.
  - assert (type = 2) as ->
      by (destruct (run_type_cases _ _ Rpre) as [?|[?|?]]; congruence).
    destruct (Conserved_same_length _ _ _ _ _ _ Hpre Hpost _ _ _ _
                Hcons Hbit Htype HPost Hptype Hl) as [<- _].
    rewrite Hfirst, concat_app, replace_app, Hrt, (run_base_replace _ Rpre).
    simpl. rewrite app_nil_r. reflexivity.
  - rewrite (proj1 (firstn_skipn_split _ _ _ _ Hs Hc)).
    rewrite concat_app, replace_app, Hrt. f_equal.
    apply replace_absent. intros Hin. apply Hno.
    destruct Hpost as [<- _].
    rewrite <- (firstn_skipn (ProgThroughPostAln w) PostBits), Hs.
    apply In_concat_part. exact Hin.
Qed.

(** X7: once the check of line 145 has passed, a walk that ends has built a
    new consensus that, with "?" replaced by "-", is the concatenation of the
    post-alignment runs the cursor has passed; so the check of line 232 then
    passes exactly when the cursor has passed all of them. *)
Theorem round_trip_after_conservation pre post PreBits PreTypes PostBits
  PostTypes w :
  SplitSeqByGapsAndMissingCov pre = Ok (PreBits, PreTypes) ->
  SplitSeqByGapsAndMissingCov post = Ok (PostBits, PostTypes) ->
  delete "-" post = delete "-" (replace "?" "-" pre) ->
  ForLoop PreTypes PostBits PostTypes 0 PreBits (Walk [] 0) = Ok w ->
  replace "?" "-" (NewConsensus w)
  = concat (firstn (ProgThroughPostAln w) PostBits)
  /\ (replace "?" "-" (NewConsensus w) = post
      <-> ProgThroughPostAln w = length PostBits).
Proof.
  intros Hpre Hpost Hbases Hwalk.
  apply SplitSeq_Ok in Hpre as [_ Hpre].
  apply SplitSeq_Ok in Hpost as [_ Hpost].
  pose proof (conservation_no_missing _ _ Hbases) as Hno.
  assert (Hinv : Conserved PreBits PostBits (0 + length PreBits) w
                 /\ Covered PostBits w
                 /\ replace "?" "-" (NewConsensus w)
                    = concat (firstn (ProgThroughPostAln w) PostBits)).
  { apply (ForLoop_invariant PreTypes PostBits PostTypes PreBits
             (fun i w =>
                Conserved PreBits PostBits i w
                /\ Covered PostBits w
                /\ replace "?" "-" (NewConsensus w)
                   = concat (firstn (ProgThroughPostAln w) PostBits)))
      with (l := PreBits) (w := Walk [] 0).
    - intros i bit w0 w1 Hbit (Hc & Hv & Hr) Hbody. split; [|split].
      + exact (Conserved_step _ _ _ _ _ _ Hpre Hpost _ _ _ _ Hbit Hc Hbody).
      + exact (Covered_step _ _ _ _ _ _ _ Hv Hbody).
      + exact (RoundTrip_step _ _ _ _ _ _ _ _ _ _
                 Hpre Hpost Hno Hbit Hc Hv Hr Hbody).
    - intros k bit Hk. exact Hk.
    - split; [|split].
      + apply (Conserved_start _ _ _ _ _ _ Hpre Hpost). exact Hbases.
      + apply Covered_start.
      + reflexivity.
    - exact Hwalk. }
  destruct Hinv as (_ & [Hc _] & Hrt). split; [exact Hrt|].
  rewrite Hrt. destruct Hpost as [Hcat Hruns]. split.
  - intros E.
    destruct (nth_error PostBits (ProgThroughPostAln w)) as [bit|] eqn:Hbit.
    + exfalso.
      pose proof (Segmentation_nonempty post PostBits PostTypes bit
                    (conj Hcat Hruns) (nth_error_In _ _ Hbit)) as Hne.
      rewrite <- Hcat in E.
      rewrite <- (firstn_skipn (ProgThroughPostAln w) PostBits) in E at 2.
      rewrite concat_app, (skipn_nth_error _ _ _ Hbit) in E.
      apply (f_equal (@length ascii)) in E.
      rewrite length_app in E. simpl in E. rewrite length_app in E.
      destruct bit; [congruence|simpl in E; lia].
    + apply nth_error_None in Hbit. lia.
  - intros ->. rewrite firstn_all. exact Hcat.
Qed.

Lemma round_trip_after_conservation_witness :
  replace "?" "-" (str_of "AC??TT-GT")
  = concat (firstn 5 [str_of "AC"; str_of "--"; str_of "TT"; str_of "-";
                      str_of "GT"])
  /\ (replace "?" "-" (str_of "AC??TT-GT") = str_of "AC--TT-GT"
      <-> 5 = length [str_of "AC"; str_of "--"; str_of "TT"; str_of "-";
                      str_of "GT"]).
Proof.
  apply (round_trip_after_conservation (str_of "AC??TTGT")
           (str_of "AC--TT-GT") [str_of "AC"; str_of "??"; str_of "TTGT"]
           [2; 0; 2]
           [str_of "AC"; str_of "--"; str_of "TT"; str_of "-"; str_of "GT"]
           [2; 1; 2; 1; 2] (Walk (str_of "AC??TT-GT") 5));
    reflexivity.
Defined.

(** X8: what the script prints for the consensus has the base content of the
    consensus it started from (after [PropagateNoCoverageChar]), is as long
    as the post-alignment consensus, has "?" only where the post-alignment
    consensus has "-", and agrees with it everywhere else. *)
Theorem output_keeps_bases Propagate mafft args calls out :
  main Propagate mafft args = (calls, Ok out) ->
  exists p AlignedSeqs position PostAlignmentConsensus NewConsensus,
    Prepare Propagate args = Ok p
    /\ mafft (MafftInput args p) = Some AlignedSeqs
    /\ nth_error AlignedSeqs position = Some PostAlignmentConsensus
    /\ nth_error out position
       = Some (Seq (id (consensus p)) NewConsensus)
    /\ bases NewConsensus = bases (Propagate (seq (consensus p)))
    /\ length NewConsensus = length (seq PostAlignmentConsensus)
    /\ forall i c,
        nth_error NewConsensus i = Some c ->
        nth_error (seq PostAlignmentConsensus) i
        = Some (if Ascii.eqb c "?" then "-" else c).
Proof.
  intros H. apply main_Ok in H as (p & AlignedSeqs & Hp & _ & Hm & H).
  apply Finish_Ok_checks in H
    as (position & Post & NC & Hn & Hid & _ & Hbases & HR & ->).
  apply Reconstruct_Ok in HR as (? & ? & ? & ? & w & _ & _ & _ & HS).
  apply SanityChecks_Ok in HS as (-> & E & _).
  destruct (Prepare_Ok _ _ _ Hp) as (_ & _ & Hcas & _).
  exists p, AlignedSeqs, position, Post, (NewConsensus w).
  do 3 (split; [assumption|]). split; [|split; [|split]].
  - rewrite <- Hid. clear -Hn. revert position Hn.
    induction AlignedSeqs as [|r l IH]; intros [|i] Hn; simpl in *;
      try discriminate; [reflexivity|]. exact (IH i Hn).
  - unfold bases. rewrite E, <- Hcas. exact Hbases.
  - rewrite <- E. symmetry. apply length_replace.
  - intros i c Hi. rewrite <- E. unfold replace.
    rewrite nth_error_map, Hi. reflexivity.
Qed.

Lemma output_keeps_bases_witness :
  exists p AlignedSeqs position PostAlignmentConsensus NewConsensus,
    Prepare PropagateNoCoverageCharSpec example_args = Ok p
    /\ example_mafft (MafftInput example_args p) = Some AlignedSeqs
    /\ nth_error AlignedSeqs position = Some PostAlignmentConsensus
    /\ nth_error example_out position
       = Some (Seq (id (consensus p)) NewConsensus)
    /\ bases NewConsensus
       = bases (PropagateNoCoverageCharSpec (seq (consensus p)))
    /\ length NewConsensus = length (seq PostAlignmentConsensus)
    /\ forall i c,
        nth_error NewConsensus i = Some c ->
        nth_error (seq PostAlignmentConsensus) i
        = Some (if Ascii.eqb c "?" then "-" else c).
Proof.
  exact (output_keeps_bases PropagateNoCoverageCharSpec example_mafft
           example_args example_calls example_out eq_refl).
Defined.

(** ** Further properties: an alignment that changes nothing *)

Lemma contains_adjacent a b s : contains [a; b] s = true -> adjacent a b s.
Proof.
  induction s as [|c s IH]; simpl; [discriminate|].
  intros H. apply orb_true_iff in H as [H|H].
  - apply andb_true_iff in H as [Ha H].
    destruct s as [|d s]; [discriminate|].
    apply andb_true_iff in H as [Hb _].
    apply Ascii.eqb_eq in Ha, Hb. subst. exists 0. auto.
  - destruct (IH H) as (i & Ha & Hb). exists (S i). auto.
Qed.

Lemma adjacent_app_r a b (before s : str) :
  adjacent a b s -> adjacent a b (before ++ s).
Proof.
  intros (i & Ha & Hb). exists (length before + i).
  rewrite <- Nat.add_succ_r, !nth_error_app2 by lia.
  replace (length before + i - length before) with i by lia.
  replace (length before + S i - length before) with (S i) by lia. auto.
Qed.

Lemma runs_adjacent Bits Types :
  Forall2 run_of Bits Types ->
  forall i a b,
    nth_error Types i = Some a -> nth_error Types (S i) = Some b ->
    a = 0 \/ a = 1 -> b = 0 \/ b = 1 ->
    adjacent (symbol_of a) (symbol_of b) (concat Bits).
Proof.
  intros H. induction H as [|bit type Bits Types Hrun Hruns IH];
    intros i a b Ha Hb Hta Htb; [destruct i; discriminate|].
  destruct i as [|i]; simpl in Ha, Hb.
  - injection Ha as ->.
    destruct Hruns as [|bit' type' Bits Types Hrun' _]; [discriminate|].
    simpl in Hb. injection Hb as ->. simpl.
    rewrite (run_not_base_repeat _ _ Hta Hrun),
      (run_not_base_repeat _ _ Htb Hrun').
    destruct Hrun as [Hne _], Hrun' as [Hne' _].
    destruct (length bit) as [|n] eqn:En;
      [destruct bit; [congruence|discriminate]|].
    destruct (length bit') as [|n'] eqn:En';
      [destruct bit'; [congruence|discriminate]|].
    change (repeat (symbol_of a) (S n))
      with (symbol_of a :: repeat (symbol_of a) n).
    rewrite repeat_cons, <- app_assoc. apply adjacent_app_r.
    exists 0. auto.
  - simpl. apply adjacent_app_r. exact (IH i a b Ha Hb Hta Htb).
Qed.

Lemma run_projected bit type :
  run_of bit type -> run_of (replace "?" "-" bit) (projected_type type).
Proof.
  intros [Hne Hall]. split; [destruct bit; [congruence|discriminate]|].
  unfold replace. apply Forall_map. eapply Forall_impl; [|exact Hall].
  intros c <-. unfold CharToInt, projected_type.
  destruct (Ascii.eqb_spec c "?") as [->|N]; [reflexivity|].
  rewrite (proj2 (Ascii.eqb_neq _ _) N).
  destruct (Ascii.eqb c "-"); reflexivity.
Qed.

Lemma Segmentation_projected pre PreBits PreTypes :
  Segmentation pre PreBits PreTypes ->
  ~ adjacent "?" "-" pre -> ~ adjacent "-" "?" pre ->
  Segmentation (replace "?" "-" pre) (map (replace "?" "-") PreBits)
    (map projected_type PreTypes).
Proof.
  intros (Hcat & Hruns & Hadj) H1 H2. split; [|split].
  - rewrite <- Hcat. unfold replace. symmetry. apply concat_map.
  - clear -Hruns. induction Hruns; simpl; constructor;
      [apply run_projected|]; assumption.
  - intros i a b Ha Hb. rewrite nth_error_map in Ha, Hb.
    destruct (nth_error PreTypes i) as [ta|] eqn:Ea; [|discriminate].
    destruct (nth_error PreTypes (S i)) as [tb|] eqn:Eb; [|discriminate].
    injection Ha as <-. injection Hb as <-.
    pose proof (Hadj i ta tb Ea Eb) as Hne.
    pose proof (runs_adjacent _ _ Hruns i ta tb Ea Eb) as Hsym.
    rewrite Hcat in Hsym. unfold projected_type.
    destruct (Nat.eqb_spec ta 0) as [->|Na];
      destruct (Nat.eqb_spec tb 0) as [->|Nb]; try congruence.
    + intros E. subst tb. apply H1. apply Hsym; auto.
    + intros E. subst ta. apply H2. apply Hsym; auto.
Qed.

Lemma LoopBody_unchanged PreTypes PostBits PostTypes i bit type w :
  nth_error PreTypes i = Some type ->
  run_of bit type ->
  nth_error PostBits (ProgThroughPostAln w) = Some (replace "?" "-" bit) ->
  nth_error PostTypes (ProgThroughPostAln w) = Some (projected_type type) ->
  LoopBody PreTypes PostBits PostTypes i bit w
  = Ok (Walk (NewConsensus w ++ bit) (S (ProgThroughPostAln w))).
Proof.
  intros Htype Hrun HPost Hptype.
  rewrite (LoopBody_reads _ _ _ _ bit _ _ _ _ Htype HPost Hptype).
  rewrite length_replace.
  destruct (run_type_cases _ _ Hrun) as [Ht|[Ht|Ht]]; subst type.
  - pose proof (run_not_base_repeat bit 0 (or_introl eq_refl) Hrun) as R.
    destruct Hrun as [Hne _]. destruct bit as [|c bit]; [congruence|].
    simpl in R. injection R as -> R. simpl. rewrite <- R. reflexivity.
  - pose proof (run_not_base_repeat bit 1 (or_intror eq_refl) Hrun) as R.
    destruct Hrun as [Hne _]. destruct bit as [|c bit]; [congruence|].
    simpl in R. injection R as -> R. simpl. rewrite <- R. reflexivity.
  - simpl. rewrite Nat.eqb_refl. reflexivity.
Qed.

Lemma unchanged_walk pre PreBits PreTypes :
  Segmentation pre PreBits PreTypes ->
  forall rest done,
    PreBits = done ++ rest ->
    ForLoop PreTypes (map (replace "?" "-") PreBits)
      (map projected_type PreTypes) (length done) rest
      (Walk (concat done) (length done))
    = Ok (Walk (concat PreBits) (length PreBits)).
Proof.
  intros Hpre. induction rest as [|bit rest IH]; intros done E.
  - rewrite app_nil_r in E. subst done. reflexivity.
  - assert (Hbit : nth_error PreBits (length done) = Some bit)
      by (rewrite E, nth_error_app2, Nat.sub_diag by lia; reflexivity).
    destruct (pre_type _ _ _ Hpre _ _ Hbit) as (type & Htype & Hrun).
    cbn [ForLoop].
    rewrite (LoopBody_unchanged _ _ _ _ _ type _ Htype Hrun)
      by (cbn [ProgThroughPostAln]; apply map_nth_error; assumption).
    cbn [bind NewConsensus ProgThroughPostAln].
    replace (concat done ++ bit) with (concat (done ++ [bit]))
      by (rewrite concat_app; simpl; rewrite app_nil_r; reflexivity).
    replace (S (length done)) with (length (done ++ [bit]))
      by (rewrite length_app; simpl; lia).
    apply IH. rewrite <- app_assoc. exact E.
Qed.

(** X9: when the aligner changes nothing, the script gives back what it
    started from: for a consensus that is not empty and has no "?" next to a
    "-", reconstructing from the consensus with "?" replaced by "-" returns
    the consensus itself. *)
Theorem unchanged_alignment pre :
  pre <> [] ->
  ~ adjacent "?" "-" pre -> ~ adjacent "-" "?" pre ->
  Reconstruct pre (replace "?" "-" pre) = Ok pre.
Proof.
  intros Hne H1 H2.
  destruct (SplitSeq_nonempty pre Hne) as (PreBits & PreTypes & Hsplit & Hpre).
  pose proof (Segmentation_projected _ _ _ Hpre H1 H2) as Hpost.
  apply Segmentation_SplitSeq in Hpost;
    [|destruct pre; [congruence|discriminate]].
  unfold Reconstruct. rewrite Hsplit, Hpost. cbn [bind].
  pose proof (unchanged_walk _ _ _ Hpre PreBits [] eq_refl) as W.
  cbn [length concat] in W. rewrite W. cbn [bind].
  destruct Hpre as [-> _]. unfold SanityChecks. cbn [NewConsensus].
  destruct (str_eq_dec _ _) as [_|N]; [|congruence].
  destruct (contains (str_of "?-") pre) eqn:C1;
    [apply contains_adjacent in C1; contradiction|].
  destruct (contains (str_of "-?") pre) eqn:C2;
    [apply contains_adjacent in C2; contradiction|].
  reflexivity.
Qed.

Lemma unchanged_alignment_witness :
  Reconstruct (str_of "AC??TT-GT") (replace "?" "-" (str_of "AC??TT-GT"))
  = Ok (str_of "AC??TT-GT").
Proof.
  apply unchanged_alignment; [discriminate| |];
    intros H; apply adjacent_contains in H; discriminate H.
Defined.

(** ** Further properties: the characters of the new consensus *)

Lemma firstn_S_nth_error {A : Type} (l : list A) i x :
  nth_error l i = Some x -> firstn (S i) l = firstn i l ++ [x].
Proof.
  revert i. induction l as [|y l IH]; intros [|i] H; simpl in *;
    try discriminate.
  - injection H as ->. reflexivity.
  - f_equal. exact (IH i H).
Qed.

Lemma In_repeat (c s : ascii) n : In c (repeat s n) <-> n <> 0 /\ c = s.
Proof.
  induction n as [|n IH]; simpl.
  - split; [intros []|intros [H _]; congruence].
  - rewrite IH. split.
    + intros [H|[_ H]]; split; congruence.
    + intros [_ ->]. left. reflexivity.
Qed.

Lemma Characters_step pre post PreBits PreTypes PostBits PostTypes
  i bit w w' :
  Segmentation pre PreBits PreTypes ->
  Segmentation post PostBits PostTypes ->
  nth_error PreBits i = Some bit ->
  (forall c, c <> "-" ->
     (In c (NewConsensus w) <-> In c (concat (firstn i PreBits)))) ->
  LoopBody PreTypes PostBits PostTypes i bit w = Ok w' ->
  forall c, c <> "-" ->
    (In c (NewConsensus w') <-> In c (concat (firstn (S i) PreBits))).
Proof.
  intros Hpre Hpost Hbit Hinv H c Hc.
  rewrite (firstn_S_nth_error _ _ _ Hbit), concat_app. simpl.
  rewrite app_nil_r, in_app_iff, <- (Hinv c Hc).
  apply LoopBody_Ok in H
    as (type & PostBit & ptype & Htype & HPost & Hptype & Hcases).
  pose proof (Segmentation_run _ _ _ _ _ _ Hpre Hbit Htype) as Rpre.
  pose proof (Segmentation_run _ _ _ _ _ _ Hpost HPost Hptype) as Rpost.
  destruct Hcases as [(Ht & -> & symbol & Hsym & ->)
                     |[(T0 & T1 & -> & Hl & ->)
                      |(T0 & T1 & -> & _ & consumed & rest & Hs & Hd & ->)]];
    cbn [NewConsensus]; rewrite in_app_iff.
  - assert (In c (repeat symbol (length PostBit)) <-> In c bit); [|tauto].
    rewrite (run_not_base_repeat _ _ Ht Rpre), !In_repeat.
    assert (symbol = symbol_of type) as ->.
    { destruct Rpre as [_ Hall]. destruct bit as [|d bit]; [discriminate|].
      injection Hsym as <-. inversion Hall; subst.
      apply CharToInt_symbol; auto. }
    destruct Rpre as [Hne _], Rpost as [Hne' _].
    destruct bit; [congruence|]. destruct PostBit; [congruence|].
    simpl. split; intros [_ E]; split; auto.
  - tauto.
  - assert (In c (concat consumed) <-> In c bit); [|tauto].
    rewrite <- Hd, In_delete. tauto.
Qed.

(** X10: every character other than "-" occurs in the new consensus that the
    walk builds exactly when it occurs in the pre-alignment consensus; so
    "?" is put back when, and only when, there was some. *)
Theorem characters_of_new_consensus pre post PreBits PreTypes PostBits
  PostTypes w :
  SplitSeqByGapsAndMissingCov pre = Ok (PreBits, PreTypes) ->
  SplitSeqByGapsAndMissingCov post = Ok (PostBits, PostTypes) ->
  ForLoop PreTypes PostBits PostTypes 0 PreBits (Walk [] 0) = Ok w ->
  forall c, c <> "-" -> (In c (NewConsensus w) <-> In c pre).
Proof.
  intros Hpre Hpost Hwalk.
  apply SplitSeq_Ok in Hpre as [_ Hpre].
  apply SplitSeq_Ok in Hpost as [_ Hpost].
  pose proof (ForLoop_invariant PreTypes PostBits PostTypes PreBits
                (fun i w =>
                   forall c, c <> "-" ->
                     (In c (NewConsensus w)
                      <-> In c (concat (firstn i PreBits))))) as Hinv.
  specialize (Hinv
    (fun i bit w0 w1 Hbit H0 Hbody =>
       Characters_step _ _ _ _ _ _ _ _ _ _ Hpre Hpost Hbit H0 Hbody)
    PreBits 0 (Walk [] 0) w (fun k bit Hk => Hk)).
  simpl in Hinv. rewrite firstn_all in Hinv. destruct Hpre as [<- _].
  apply Hinv; [|exact Hwalk]. intros c _. reflexivity.
Qed.

Lemma characters_of_new_consensus_witness :
  In "?" (str_of "AC???TT-GT") <-> In "?" (str_of "AC??TTGT").
Proof.
  apply (characters_of_new_consensus (str_of "AC??TTGT")
           (str_of "AC---TT-GT") [str_of "AC"; str_of "??"; str_of "TTGT"]
           [2; 0; 2]
           [str_of "AC"; str_of "---"; str_of "TT"; str_of "-"; str_of "GT"]
           [2; 1; 2; 1; 2] (Walk (str_of "AC???TT-GT") 5));
    try reflexivity.
  discriminate.
Defined.

(** ** Further properties: how the walk can stop *)

Lemma SplitSeq_Fail_empty seq f :
  SplitSeqByGapsAndMissingCov seq = Fail f ->
  seq = [] /\ f = UnboundLocalError 174.
Proof.
  destruct seq as [|c seq]; intros H.
  - injection H as <-. auto.
  - destruct (SplitSeq_nonempty (c :: seq)) as (B & T & E & _);
      [discriminate|congruence].
Qed.

Lemma ForLoop_Fail_at PreTypes PostBits PostTypes l :
  forall j w f,
    ForLoop PreTypes PostBits PostTypes j l w = Fail f ->
    exists k bit w',
      nth_error l k = Some bit
      /\ ForLoop PreTypes PostBits PostTypes j (firstn k l) w = Ok w'
      /\ LoopBody PreTypes PostBits PostTypes (j + k) bit w' = Fail f.
Proof.
  induction l as [|bit l IH]; intros j w f H; simpl in H; [discriminate|].
  destruct (LoopBody _ _ _ j bit w) as [w1|f1] eqn:B; simpl in H.
  - destruct (IH _ _ _ H) as (k & bit' & w' & Hk & Hpre & Hbody).
    exists (S k), bit', w'. split; [exact Hk|]. split.
    + simpl. rewrite B. exact Hpre.
    + rewrite Nat.add_succ_r. exact Hbody.
  - injection H as <-. exists 0, bit, w. rewrite Nat.add_0_r. auto.
Qed.

Lemma LoopBody_exception pre post PreBits PreTypes PostBits PostTypes
  i bit w f :
  Segmentation pre PreBits PreTypes ->
  Segmentation post PostBits PostTypes ->
  Conserved PreBits PostBits i w ->
  nth_error PreBits i = Some bit ->
  LoopBody PreTypes PostBits PostTypes i bit w = Fail f ->
  kind f = None ->
  f = IndexError 189.
Proof.
  intros Hpre Hpost Hcons Hbit H Hkind.
  destruct (pre_type _ _ _ Hpre _ _ Hbit) as (type & Htype & Rpre).
  destruct (nth_error PostBits (ProgThroughPostAln w)) as [PostBit|] eqn:HPost.
  - exfalso.
    destruct (nth_error PostTypes (ProgThroughPostAln w)) as [ptype|] eqn:Hpt.
    + rewrite (LoopBody_reads _ _ _ _ bit _ _ _ _ Htype HPost Hpt) in H.
      destruct (run_type_cases _ _ Rpre) as [-> | [-> | ->]]; simpl in H.
      1,2: destruct (ptype =? 1); simpl in H;
           [|injection H as <-; discriminate];
           destruct Rpre as [Hne _]; destruct bit; [congruence|discriminate].
      destruct (ptype =? 2); simpl in H; [|injection H as <-; discriminate].
      destruct (length PostBit =? length bit); [discriminate|].
      unfold WhileLoop in H.
      destruct (WhileFrom _ _ _ _) as [[NewForm cursor]|f'] eqn:W.
      * simpl in H. destruct (str_eq_dec _ _); [discriminate|].
        injection H as <-. discriminate.
      * apply WhileFrom_Fail in W as [_ W]. simpl in W.
        pose proof (proj1 (Conserved_base_in_bounds _ _ _ _ _ _ _ _ _
                             Hpre Hpost Hcons Hbit Htype)).
        lia.
    + apply nth_error_None in Hpt.
      rewrite <- (Segmentation_lengths _ _ _ Hpost) in Hpt.
      apply nth_error_None in Hpt. congruence.
  - unfold LoopBody, item in H. rewrite Htype, HPost in H. simpl in H.
    injection H as <-. reflexivity.
Qed.

Lemma Reconstruct_exception pre post f :
  delete "-" post = delete "-" (replace "?" "-" pre) ->
  Reconstruct pre post = Fail f ->
  kind f = None ->
  f = UnboundLocalError 174 \/ f = IndexError 189.
Proof.
  unfold Reconstruct. intros Hbases H Hkind.
  destruct (SplitSeqByGapsAndMissingCov pre) as [[PreBits PreTypes]|f1] eqn:S1;
    [|injection H as <-; left; exact (proj2 (SplitSeq_Fail_empty _ _ S1))].
  destruct (SplitSeqByGapsAndMissingCov post) as [[PostBits PostTypes]|f2]
    eqn:S2;
    [|injection H as <-; left; exact (proj2 (SplitSeq_Fail_empty _ _ S2))].
  cbn [bind] in H. apply SplitSeq_Ok in S1 as [_ Hpre].
  apply SplitSeq_Ok in S2 as [_ Hpost].
  destruct (ForLoop _ _ _ _ _ _) as [w|f3] eqn:W; cbn [bind] in H.
  - exfalso. unfold SanityChecks in H.
    destruct (str_eq_dec _ _); [|injection H as <-; discriminate].
    destruct (_ || _); [injection H as <-; discriminate|discriminate].
  - injection H as <-. right.
    apply ForLoop_Fail_at in W as (k & bit & w' & Hk & Hwalk & Hbody).
    simpl in Hbody.
    assert (Hle : k <= length PreBits)
      by (apply Nat.lt_le_incl, nth_error_Some; congruence).
    pose proof (WalkBefore_Conserved _ _ _ _ _ _ Hpre Hpost _ _
                  Hbases Hle Hwalk) as Hcons.
    exact (LoopBody_exception _ _ _ _ _ _ _ _ _ _
             Hpre Hpost Hcons Hk Hbody Hkind).
Qed.

(** X11: besides its own messages and the failure of mafft that line 127
    raises again, the script can stop in two ways only: the
    UnboundLocalError of line 174 in the segmenter, and the IndexError of
    line 189 at the cursor; no other read by index and no other name lookup
    of lines 53-245 ever fails. *)
Theorem script_exceptions Propagate mafft args calls f :
  main Propagate mafft args = (calls, Fail f) ->
  kind f = None ->
  f = UnboundLocalError 174 \/ f = IndexError 189.
Proof.
  unfold main. intros H Hkind.
  destruct (Prepare Propagate args) as [p|f0] eqn:Hp.
  - destruct (Prepare_Ok _ _ _ Hp) as (_ & _ & _ & Hids & _).
    destruct (mafft _) as [AlignedSeqs|];
      [|injection H as _ <-; discriminate].
    injection H as _ H. unfold Finish, item in H.
    destruct (list_eq_dec _ _ _) as [E|]; [|injection H as <-; discriminate].
    apply sorted_eq_Permutation in E.
    assert (Hin : In (id (consensus p)) (map id AlignedSeqs)).
    { eapply Permutation_in; [apply Permutation_sym; exact E|].
      rewrite Hids. left. reflexivity. }
    destruct (FindConsensus_In AlignedSeqs 0 _ None Hin)
      as (n & record & F & _ & Hn & _).
    rewrite Nat.sub_0_r in Hn. rewrite F in H. cbn [bind] in H.
    rewrite Hn in H. cbn [bind] in H.
    destruct (str_eq_dec _ _) as [D|]; [|injection H as <-; discriminate].
    destruct (Reconstruct _ _) as [NC|f1] eqn:R; [discriminate|].
    injection H as <-. exact (Reconstruct_exception _ _ _ D R Hkind).
  - injection H as _ <-. exfalso. unfold Prepare in Hp.
    destruct (SeqPairWithMissingCov args) as [|c [|r [|x l]]];
      cbn [FindPair bind] in Hp; try (injection Hp as <-; discriminate).
    destruct (CheckPair (seq c) (seq r)) as [[]|f1] eqn:C; cbn [bind] in Hp.
    + destruct (_ <? _); [injection Hp as <-|]; discriminate.
    + injection Hp as <-. rewrite (CheckPair_Fail _ _ _ C) in Hkind.
      discriminate.
Qed.

Lemma script_exceptions_witness :
  IndexError 189 = UnboundLocalError 174 \/ IndexError 189 = IndexError 189.
Proof.
  apply (script_exceptions PropagateNoCoverageCharSpec
           (fun _ =>
              Some [Seq "consensus" (str_of "A"); Seq "ref" (str_of "A")])
           (Args [] [Seq "consensus" (str_of "A?"); Seq "ref" (str_of "AT")]
                 false false)
           [Mafft false []
              [Seq "consensus" (str_of "A-"); Seq "ref" (str_of "AT")]]
           (IndexError 189));
    reflexivity.
Defined.

(** X12: a walk that ends has moved the cursor by at least one run for each
    pre-alignment run and never beyond the post-alignment runs: the
    post-alignment consensus has at least as many runs as the pre-alignment
    one. *)
Theorem runs_only_grow pre post PreBits PreTypes PostBits PostTypes w :
  SplitSeqByGapsAndMissingCov pre = Ok (PreBits, PreTypes) ->
  SplitSeqByGapsAndMissingCov post = Ok (PostBits, PostTypes) ->
  ForLoop PreTypes PostBits PostTypes 0 PreBits (Walk [] 0) = Ok w ->
  length PreBits <= ProgThroughPostAln w
  /\ ProgThroughPostAln w <= length PostBits.
Proof.
  intros Hpre Hpost Hwalk. apply SplitSeq_Ok in Hpre as [_ Hpre]. split.
  - apply (ForLoop_invariant PreTypes PostBits PostTypes PreBits
             (fun i w => i <= ProgThroughPostAln w))
      with (l := PreBits) (j := 0) (w := Walk [] 0);
      [|intros k bit Hk; exact Hk|simpl; lia|exact Hwalk].
    intros i bit w0 w1 Hbit Hi Hbody.
    apply LoopBody_Ok in Hbody
      as (type & PostBit & ptype & Htype & _ & _ & Hcases).
    pose proof (Segmentation_run _ _ _ _ _ _ Hpre Hbit Htype) as [Hne _].
    destruct Hcases as [(_ & _ & symbol & _ & ->)
                       |[(_ & _ & _ & _ & ->)
                        |(_ & _ & _ & _ & consumed & rest & _ & Hd & ->)]];
      cbn [ProgThroughPostAln]; try lia.
    destruct consumed; [simpl in Hd; congruence|simpl; lia].
  - exact (proj1 (ForLoop_Covered _ _ _ _ _ Hwalk)).
Qed.

Lemma runs_only_grow_witness :
  length [str_of "AC"; str_of "??"; str_of "TTGT"] <= 5
  /\ 5 <= length [str_of "AC"; str_of "--"; str_of "TT"; str_of "-";
                  str_of "GT"].
Proof.
  apply (runs_only_grow (str_of "AC??TTGT") (str_of "AC--TT-GT")
           [str_of "AC"; str_of "??"; str_of "TTGT"] [2; 0; 2]
           [str_of "AC"; str_of "--"; str_of "TT"; str_of "-"; str_of "GT"]
           [2; 1; 2; 1; 2] (Walk (str_of "AC??TT-GT") 5));
    reflexivity.
Defined.

Lemma SplitSeq_first c seq :
  exists bit Bits Types,
    SplitSeqByGapsAndMissingCov (c :: seq)
    = Ok (bit :: Bits, CharToInt c :: Types).
Proof.
  destruct (SplitSeq_nonempty (c :: seq)) as (B & T & E & Hcat & Hruns & _);
    [discriminate|].
  destruct (runs_first_char _ _ _ _ Hruns Hcat) as [Types ->].
  inversion Hruns as [|bit ? Bits ? _ _]; subst.
  exists bit, Bits, Types. exact E.
Qed.

(** X13: the first characters of the two consensus strings decide at once:
    when the pre-alignment consensus starts with a base and the
    post-alignment one does not, or the first starts with "?" or "-" and the
    second does not start with "-", the script stops at the first run, with
    the message of line 211 or of line 197; an alignment that puts a gap in
    front of a consensus that starts with a base is refused. *)
Theorem first_run_mismatch c pre d post :
  projected_type (CharToInt c) <> CharToInt d ->
  Reconstruct (c :: pre) (d :: post)
  = Fail (if CharToInt c =? 2 then SeqBecameOther else GapBecameOther).
Proof.
  intros N.
  destruct (SplitSeq_first c pre) as (bit & Bits & Types & E1).
  destruct (SplitSeq_first d post) as (bit' & Bits' & Types' & E2).
  unfold Reconstruct. rewrite E1, E2. cbn [bind ForLoop].
  rewrite (LoopBody_reads (CharToInt c :: Types) (bit' :: Bits')
             (CharToInt d :: Types') 0 bit (Walk [] 0) (CharToInt c) bit'
             (CharToInt d) eq_refl eq_refl eq_refl).
  unfold projected_type in N.
  assert (Hc : CharToInt c = 0 \/ CharToInt c = 1 \/ CharToInt c = 2).
  { unfold CharToInt. destruct (Ascii.eqb c "?"); [auto|].
    destruct (Ascii.eqb c "-"); auto. }
  destruct Hc as [E|[E|E]]; rewrite E in *; simpl in N |- *.
  all: apply not_eq_sym, Nat.eqb_neq in N; rewrite N; reflexivity.
Qed.

Lemma first_run_mismatch_witness :
  Reconstruct (str_of "ACGT") (str_of "--ACGT") = Fail SeqBecameOther.
Proof.
  apply (first_run_mismatch "A" (str_of "CGT") "-" (str_of "-ACGT")).
  discriminate.
Defined.
